(** * SessionManager: a shallow embedding of [server/SessionManager.ts]

    The development follows the TypeScript source top-down:

    - JavaScript strings are sequences of UTF-16 code units ([jsstring]);
    - the regular expressions of the source are values of [regex], run by a
      backtracking matcher written in continuation-passing style, the way
      ECMA-262 defines pattern semantics;
    - [SessionState] objects live in an object store and the registry
      ([Map<string, SessionState>]) maps ids to references, because the
      source shares one mutable object between the registry, the closures
      of the stream and exit listeners, and the caller of [create];
    - the Node.js runtime (spawn, child-process events, timers, clock) is the
      environment: its answers are explicit arguments of the operations;
    - a call of the interface runs to its end before the next one starts;
      while [kill] and [shutdown] wait for their timers, the children may
      write output and end. *)

From Stdlib Require Import ZArith NArith List String Ascii Bool Lia.
From stdpp Require Import base list.
Import ListNotations.

Local Open Scope Z_scope.

(** ** JavaScript strings *)

Module JS.

(** One UTF-16 code unit. *)
Definition char := N.
Definition jsstring := list N.

(** Source text is UTF-8; the compiler turns a literal into UTF-16 code
    units.  [utf16] does the same for the literals written below. *)
Fixpoint utf16_bytes (fuel : nat) (bs : list N) : jsstring :=
  match fuel with
  | O => []
  | S fuel' =>
    match bs with
    | [] => []
    | b0 :: t0 =>
      if (b0 <? 0x80)%N then b0 :: utf16_bytes fuel' t0
      else if (b0 <? 0xE0)%N then
        match t0 with
        | b1 :: t1 =>
            (N.lor (N.shiftl (N.land b0 0x1F) 6) (N.land b1 0x3F))
              :: utf16_bytes fuel' t1
        | _ => []
        end
      else if (b0 <? 0xF0)%N then
        match t0 with
        | b1 :: b2 :: t2 =>
            (N.lor (N.shiftl (N.land b0 0x0F) 12)
               (N.lor (N.shiftl (N.land b1 0x3F) 6) (N.land b2 0x3F)))
              :: utf16_bytes fuel' t2
        | _ => []
        end
      else
        match t0 with
        | b1 :: b2 :: b3 :: t3 =>
            let cp := N.lor (N.shiftl (N.land b0 0x07) 18)
                        (N.lor (N.shiftl (N.land b1 0x3F) 12)
                           (N.lor (N.shiftl (N.land b2 0x3F) 6) (N.land b3 0x3F))) in
            let v := (cp - 0x10000)%N in
            (0xD800 + N.shiftr v 10)%N :: (0xDC00 + N.land v 0x3FF)%N
              :: utf16_bytes fuel' t3
        | _ => []
        end
    end
  end.

Definition utf16 (s : string) : jsstring :=
  let bs := map N_of_ascii (list_ascii_of_string s) in
  utf16_bytes (length bs) bs.

Definition LF : char := 10%N.
Definition CR : char := 13%N.

(** ECMA-262 WhiteSpace and LineTerminator: the set of [\s] and of
    [String.prototype.trim]. *)
Definition isLineTerminator (c : char) : bool :=
  (c =? 0x0A)%N || (c =? 0x0D)%N || (c =? 0x2028)%N || (c =? 0x2029)%N.

Definition isWhiteSpace (c : char) : bool :=
  (c =? 0x09)%N || (c =? 0x0B)%N || (c =? 0x0C)%N || (c =? 0x20)%N
  || (c =? 0xA0)%N || (c =? 0x1680)%N
  || ((0x2000 <=? c)%N && (c <=? 0x200A)%N)
  || (c =? 0x202F)%N || (c =? 0x205F)%N || (c =? 0x3000)%N || (c =? 0xFEFF)%N.

Definition isSpace (c : char) : bool := isWhiteSpace c || isLineTerminator c.

Definition isDigit (c : char) : bool := (0x30 <=? c)%N && (c <=? 0x39)%N.

Definition isWord (c : char) : bool :=
  ((0x41 <=? c)%N && (c <=? 0x5A)%N) || ((0x61 <=? c)%N && (c <=? 0x7A)%N)
  || isDigit c || (c =? 0x5F)%N.

(** [.] without the [s] flag. *)
Definition isDot (c : char) : bool := negb (isLineTerminator c).

(** Canonicalize of ECMA-262 for a pattern without the [u] flag.  Every
    pattern of the source that carries the [i] flag is made of ASCII
    characters, and a code unit above 127 never canonicalizes to one below
    128, so upper-casing [a-z] decides every comparison the source makes. *)
Definition canonicalize (c : char) : char :=
  if (0x61 <=? c)%N && (c <=? 0x7A)%N then (c - 32)%N else c.

(** [a === b] on strings. *)
Definition strictEq (a b : jsstring) : bool := bool_decide (a = b).

(** [Array.prototype.slice(start, end)] and [String.prototype.slice]. *)
Definition relativeIndex (len k : Z) : Z :=
  if k <? 0 then Z.max (len + k) 0 else Z.min k len.

Definition slice {A} (start : Z) (fin : option Z) (l : list A) : list A :=
  let len := Z.of_nat (length l) in
  let k := relativeIndex len start in
  let final := match fin with None => len | Some e => relativeIndex len e end in
  firstn (Z.to_nat (final - k)) (skipn (Z.to_nat k) l).

(** The last [n] elements. *)
Definition lastLines {A} (n : nat) (l : list A) : list A :=
  skipn (length l - n) l.

(** [Array.prototype.join]. *)
Fixpoint join (sep : jsstring) (l : list jsstring) : jsstring :=
  match l with
  | [] => []
  | [s] => s
  | s :: t => s ++ sep ++ join sep t
  end.

(** [String.prototype.trim]. *)
Fixpoint trimStart (s : jsstring) : jsstring :=
  match s with
  | c :: t => if isSpace c then trimStart t else s
  | [] => []
  end.

Definition trim (s : jsstring) : jsstring :=
  rev (trimStart (rev (trimStart s))).

(** [String.prototype.includes]. *)
Fixpoint startsWith (p s : jsstring) : bool :=
  match p, s with
  | [], _ => true
  | a :: p', b :: s' => (a =? b)%N && startsWith p' s'
  | _ :: _, [] => false
  end.

Fixpoint includes (p s : jsstring) : bool :=
  startsWith p s ||
  match s with
  | [] => false
  | _ :: t => includes p t
  end.

End JS.
Import JS.

(** ** Regular expressions *)

Module RegExp.

Inductive regex : Type :=
| Empty
| Char (c : char)
| Class (p : char -> bool)
| Seq (r1 r2 : regex)
| Alt (r1 r2 : regex)
| Star (r : regex)
| Group (i : nat) (r : regex)
| Bol
| Eol.

(** [r+], [r?] (both greedy) and a literal word. *)
Definition Plus (r : regex) : regex := Seq r (Star r).
Definition Opt (r : regex) : regex := Alt r Empty.
Fixpoint Lit (s : jsstring) : regex :=
  match s with
  | [] => Empty
  | [c] => Char c
  | c :: t => Seq (Char c) (Lit t)
  end.

Record RegExp := mkRegExp { pattern : regex; ignoreCase : bool }.

(** A match state: the index reached, the input left, the captures. *)
Record mstate := mkState {
  endIndex : nat;
  rest : jsstring;
  captures : list (nat * jsstring)
}.

Definition continuation := mstate -> option mstate.

Definition charMatches (ic : bool) (c d : char) : bool :=
  if ic then (canonicalize c =? canonicalize d)%N else (c =? d)%N.

Definition advance (x : mstate) (t : jsstring) : mstate :=
  mkState (S (endIndex x)) t (captures x).

Definition setCapture (i : nat) (x y : mstate) : mstate :=
  mkState (endIndex y) (rest y)
    ((i, firstn (endIndex y - endIndex x) (rest x)) :: captures y).

(** The matcher of ECMA-262, 22.2.2: a pattern is run against a state and
    a continuation; alternatives and greedy repetition backtrack through
    the continuation's failure.  A repetition refuses an iteration that
    consumes nothing, as the specification does. *)
Fixpoint run (ic : bool) (r : regex) (x : mstate) (k : continuation)
  : option mstate :=
  match r with
  | Empty => k x
  | Char c =>
      match rest x with
      | d :: t => if charMatches ic c d then k (advance x t) else None
      | [] => None
      end
  | Class p =>
      match rest x with
      | d :: t => if p d then k (advance x t) else None
      | [] => None
      end
  | Seq r1 r2 => run ic r1 x (fun y => run ic r2 y k)
  | Alt r1 r2 =>
      match run ic r1 x k with
      | Some z => Some z
      | None => run ic r2 x k
      end
  | Star r' =>
      (fix iterate (n : nat) (x : mstate) : option mstate :=
         match n with
         | O => k x
         | S n' =>
             match run ic r' x
                     (fun y => if (endIndex x <? endIndex y)%nat
                               then iterate n' y else None) with
             | Some z => Some z
             | None => k x
             end
         end) (length (rest x)) x
  | Group i r' => run ic r' x (fun y => k (setCapture i x y))
  | Bol => if (endIndex x =? 0)%nat then k x else None
  | Eol => match rest x with [] => k x | _ :: _ => None end
  end.

(** A match attempt anchored at index [q], where [s] is the input from
    [q] on. *)
Definition matchAt (re : RegExp) (q : nat) (s : jsstring) : option mstate :=
  run (ignoreCase re) (pattern re) (mkState q s []) Some.

(** [RegExp.prototype.exec] of a pattern without [g] or [y]: the leftmost
    index at which the matcher succeeds. *)
Fixpoint execFrom (re : RegExp) (q : nat) (s : jsstring) : option mstate :=
  match matchAt re q s with
  | Some z => Some z
  | None =>
      match s with
      | [] => None
      | _ :: t => execFrom re (S q) t
      end
  end.

Definition exec (re : RegExp) (s : jsstring) : option mstate := execFrom re 0 s.

(** [RegExp.prototype.test]. *)
Definition test (re : RegExp) (s : jsstring) : bool :=
  match exec re s with Some _ => true | None => false end.

(** [m[i]] of a successful [String.prototype.match]; the groups of the
    source's patterns always take part in a match. *)
Fixpoint capture (i : nat) (cs : list (nat * jsstring)) : jsstring :=
  match cs with
  | [] => []
  | (j, s) :: t => if (i =? j)%nat then s else capture i t
  end.

(** [RegExp.prototype[Symbol.split]] without a limit, for a separator
    without capture groups (the source splits by [/\r?\n/] only).  [acc]
    holds, in reverse, the code units between the end of the last separator
    and the index [q]; [s] is the input from [q] on. *)
Fixpoint splitFrom (fuel : nat) (re : RegExp) (q : nat) (acc s : jsstring)
  : list jsstring :=
  match fuel with
  | O => [rev acc ++ s]
  | S fuel' =>
      match s with
      | [] => [rev acc]
      | c :: t =>
          match matchAt re q s with
          | None => splitFrom fuel' re (S q) (c :: acc) t
          | Some z =>
              if (endIndex z =? q)%nat && bool_decide (acc = [])
              then splitFrom fuel' re (S q) (c :: acc) t
              else rev acc :: splitFrom fuel' re (endIndex z) [] (rest z)
          end
      end
  end.

Definition split (re : RegExp) (s : jsstring) : list jsstring :=
  match s with
  | [] => match matchAt re 0 [] with Some _ => [] | None => [[]] end
  | _ :: _ => splitFrom (2 * length s + 2) re 0 [] s
  end.

End RegExp.
Import RegExp.

(** ** The prompt detector *)

(** [[r1; r2; ...]] in sequence. *)
Definition Seqs (rs : list regex) : regex := fold_right Seq Empty rs.

Definition word (s : string) : regex := Lit (utf16 s).

Definition SELECTOR : char := 0x276F%N.      (* ❯ *)
Definition GREATER : char := 0x3E%N.         (* > *)
Definition BULLET : char := 0x25CF%N.        (* ● *)
Definition HALF_CIRCLE : char := 0x25D0%N.   (* ◐ *)
Definition MIDDLE_DOT : char := 0xB7%N.      (* · *)

(** [/\r?\n/] *)
Definition reNewline : RegExp :=
  mkRegExp (Seqs [Opt (Char CR); Char LF]) false.

(** [/(Do you want|Would you like) to proceed\?/i] *)
Definition reProceed : RegExp :=
  mkRegExp (Seqs [Group 1 (Alt (word "Do you want") (word "Would you like"));
                  word " to proceed?"]) true.

(** [/Esc to cancel|ctrl-g to edit/i] *)
Definition reFooter : RegExp :=
  mkRegExp (Alt (word "Esc to cancel") (word "ctrl-g to edit")) true.

(** [/^\s*❯/] *)
Definition reSelector : RegExp :=
  mkRegExp (Seqs [Bol; Star (Class isSpace); Char SELECTOR]) false.

(** [/Esc to cancel/i] *)
Definition reEsc : RegExp := mkRegExp (word "Esc to cancel") true.

(** [/^\s*[❯>]?\s*(\d+)\.\s+(.+)$/] *)
Definition reOption : RegExp :=
  mkRegExp (Seqs [Bol; Star (Class isSpace);
                  Opt (Class (fun c => (c =? SELECTOR)%N || (c =? GREATER)%N));
                  Star (Class isSpace);
                  Group 1 (Plus (Class isDigit));
                  Char 0x2E%N;
                  Plus (Class isSpace);
                  Group 2 (Plus (Class isDot));
                  Eol]) false.

(** [/[●◐·]\s*(\w+)\s*\(/] *)
Definition reTool : RegExp :=
  mkRegExp (Seqs [Class (fun c => (c =? BULLET)%N || (c =? HALF_CIRCLE)%N
                                   || (c =? MIDDLE_DOT)%N);
                  Star (Class isSpace);
                  Group 1 (Plus (Class isWord));
                  Star (Class isSpace);
                  Char 0x28%N]) false.

(** [/^\s*(Bash|Read|Write|Edit|Grep|Glob|Task|WebFetch|WebSearch)\s+\w+/i] *)
Definition reCmd : RegExp :=
  mkRegExp (Seqs [Bol; Star (Class isSpace);
                  Group 1 (Alt (word "Bash") (Alt (word "Read") (Alt (word "Write")
                          (Alt (word "Edit") (Alt (word "Grep") (Alt (word "Glob")
                          (Alt (word "Task") (Alt (word "WebFetch")
                               (word "WebSearch")))))))));
                  Plus (Class isSpace);
                  Plus (Class isWord)]) true.

Record PromptOption := mkOption { number : jsstring; label : jsstring }.

Record PermissionPrompt := mkPrompt {
  tool : jsstring;
  context : jsstring;
  options : list PromptOption
}.

Definition Unknown : jsstring := utf16 "Unknown".

(** [lines[i]] for an index inside the array (every loop below stays
    inside it). *)
Definition lineAt (lines : list jsstring) (i : Z) : jsstring :=
  nth (Z.to_nat i) lines [].

(** [for (i = ...; i >= stop; i--)] looking for the question; [n] counts
    the iterations left.  The result is [proceedLineIdx]. *)
Fixpoint findProceed (lines : list jsstring) (n : nat) (i : Z) : Z :=
  match n with
  | O => -1
  | S n' =>
      if test reProceed (lineAt lines i) then i
      else findProceed lines n' (i - 1)
  end.

(** The footer loop; returns [(hasFooter, hasSelector)]. *)
Fixpoint verifyFooter (lines : list jsstring) (n : nat) (i : Z)
    (hasSelector : bool) : bool * bool :=
  match n with
  | O => (false, hasSelector)
  | S n' =>
      if test reFooter (lineAt lines i) then (true, hasSelector)
      else verifyFooter lines n' (i + 1)
             (if test reSelector (lineAt lines i) then true else hasSelector)
  end.

(** The options loop. *)
Fixpoint collectOptions (lines : list jsstring) (n : nat) (i : Z)
    (acc : list PromptOption) : list PromptOption :=
  match n with
  | O => acc
  | S n' =>
      let line := lineAt lines i in
      if test reEsc line then acc
      else
        match exec reOption line with
        | Some optionMatch =>
            collectOptions lines n' (i + 1)
              (acc ++ [mkOption (capture 1 (captures optionMatch))
                                (trim (capture 2 (captures optionMatch)))])
        | None => collectOptions lines n' (i + 1) acc
        end
  end.

(** The tool loop. *)
Fixpoint findTool (lines : list jsstring) (n : nat) (i : Z) : jsstring :=
  match n with
  | O => Unknown
  | S n' =>
      match exec reTool (lineAt lines i) with
      | Some toolMatch => capture 1 (captures toolMatch)
      | None =>
          match exec reCmd (lineAt lines i) with
          | Some cmdMatch => capture 1 (captures cmdMatch)
          | None => findTool lines n' (i - 1)
          end
      end
  end.

(** Number of iterations of [for (i = lo; i < hi; i++)] and of
    [for (i = hi; i >= lo; i--)]. *)
Definition upCount (lo hi : Z) : nat := Z.to_nat (hi - lo).
Definition downCount (hi lo : Z) : nat := Z.to_nat (hi - lo + 1).

Definition parsePermissionPrompt (output : jsstring) : option PermissionPrompt :=
  let lines := split reNewline output in
  let len := Z.of_nat (length lines) in
  let proceedLineIdx :=
    findProceed lines (downCount (len - 1) (Z.max 0 (len - 30))) (len - 1) in
  if proceedLineIdx =? -1 then None else
  let '(hasFooter, hasSelector) :=
    verifyFooter lines
      (upCount (proceedLineIdx + 1) (Z.min len (proceedLineIdx + 15)))
      (proceedLineIdx + 1) false in
  if negb hasFooter && negb hasSelector then None else
  let opts :=
    collectOptions lines
      (upCount (proceedLineIdx + 1) (Z.min len (proceedLineIdx + 10)))
      (proceedLineIdx + 1) [] in
  if (Z.of_nat (length opts) <? 2) then None else
  let tool :=
    findTool lines (downCount proceedLineIdx (Z.max 0 (proceedLineIdx - 20)))
      proceedLineIdx in
  let contextStart := Z.max 0 (proceedLineIdx - 10) in
  let contextEnd := proceedLineIdx + 1 + Z.of_nat (length opts) in
  let context := trim (join [LF] (slice contextStart (Some contextEnd) lines)) in
  Some (mkPrompt tool context opts).

(** ** Sessions *)

Inductive Status := idle | working | offline.

Inductive Signal := SIGHUP | SIGINT | SIGTERM | SIGKILL.

(** [os.EOL] *)
Inductive Platform := posix | win32.
Definition EOL (p : Platform) : jsstring :=
  match p with posix => [LF] | win32 => [CR; LF] end.

(** The writable end of the child's stdin pipe. *)
Record Writable := mkWritable {
  written : list jsstring;
  ended : bool
}.

(** The [ChildProcess] handle of Node.js, as far as the source reads it.
    [killed] is set by a [kill()] call that delivered its signal; when the
    child ends, the runtime stores the exit code in [exitCode] or, for a
    child ended by a signal, the signal in [signalCode] and leaves
    [exitCode] null.  [signalsSent] records the signals delivered by
    [kill()]. *)
Record ChildProcess := mkProcess {
  stdin : option Writable;
  killed : bool;
  exitCode : option Z;
  signalCode : option Signal;
  signalsSent : list Signal
}.

Record SessionState := mkSession {
  id : jsstring;
  process : ChildProcess;
  pid : Z;
  status : Status;
  outputBuffer : list jsstring;
  createdAt : Z;
  lastActivity : Z
}.

(** [onOutput] and [onExit] are the caller's closures; they are outside
    the module and not modelled. *)
Record SessionOptions := mkOptions {
  opt_id : jsstring;
  cwd : jsstring;
  claudeArgs : list jsstring
}.

Definition MAX_OUTPUT_LINES : Z := 200.

(** The [Error]s the source throws, by message:
    [Session ${id} already exists], [Failed to spawn Claude Code process],
    [Session ${id} not found], [Session ${id} is not running],
    [Unknown control character: ${char}].  [InvalidArgTypeError] is the
    [TypeError] of [stream.write] for a chunk that is no string. *)
Inductive Error :=
| DuplicateSessionError (sessionId : jsstring)
| SpawnError
| NotFoundError (sessionId : jsstring)
| OfflineError (sessionId : jsstring)
| UnknownControlError (char : jsstring)
| InvalidArgTypeError.

Definition message (e : Error) : jsstring :=
  match e with
  | DuplicateSessionError i => utf16 "Session " ++ i ++ utf16 " already exists"
  | SpawnError => utf16 "Failed to spawn Claude Code process"
  | NotFoundError i => utf16 "Session " ++ i ++ utf16 " not found"
  | OfflineError i => utf16 "Session " ++ i ++ utf16 " is not running"
  | UnknownControlError c => utf16 "Unknown control character: " ++ c
  | InvalidArgTypeError =>
      utf16 "The 'chunk' argument must be of type string or an instance of Buffer or Uint8Array"
  end.

Inductive Outcome (A : Type) :=
| Return (a : A)
| Throw (e : Error).
Arguments Return {A} a.
Arguments Throw {A} e.

(** What [this.log] is called with (the timestamp prefix is left out). *)
Inductive LogMessage :=
| LogCreating (sessionId dir : jsstring)
| LogStarted (sessionId : jsstring) (p : Z)
| LogExited (sessionId : jsstring) (code : option Z)
| LogError (sessionId msg : jsstring)
| LogSendingText (sessionId prefix : jsstring)
| LogSendingControl (char sessionId : jsstring)
| LogKilling (sessionId : jsstring) (p : Z)
| LogKilled (sessionId : jsstring)
| LogShuttingDown
| LogAllTerminated.

Record SpawnCall := mkSpawn {
  command : jsstring;
  args : list jsstring;
  spawnCwd : jsstring
}.

(** ** [Map<string, V>]: insertion-ordered, one entry per key *)

Module Map.
Section Map.
Context {V : Type}.

Definition t := list (jsstring * V).

Fixpoint get (k : jsstring) (m : t) : option V :=
  match m with
  | [] => None
  | (k', v) :: m' => if strictEq k k' then Some v else get k m'
  end.

Definition has (k : jsstring) (m : t) : bool :=
  match get k m with Some _ => true | None => false end.

Fixpoint set (k : jsstring) (v : V) (m : t) : t :=
  match m with
  | [] => [(k, v)]
  | (k', v') :: m' =>
      if strictEq k k' then (k', v) :: m' else (k', v') :: set k v m'
  end.

Fixpoint delete (k : jsstring) (m : t) : t :=
  match m with
  | [] => []
  | (k', v') :: m' =>
      if strictEq k k' then delete k m' else (k', v') :: delete k m'
  end.

Definition keys (m : t) : list jsstring := fst <$> m.
Definition values (m : t) : list V := snd <$> m.
End Map.
Arguments t : clear implicits.
End Map.

(** ** The session manager *)

(** A reference to a [SessionState] object. *)
Abbreviation ref := nat (only parsing).

(** The manager with the objects it has allocated and the effects it has
    had on the outside: [sessions] is [this.sessions]; [store] holds every
    [SessionState] object created so far (an object stays reachable through
    the listeners' closures and through the value [create] returned, also
    once [kill] has taken it out of the registry); [logged] and [spawned]
    record the calls of [this.log] and of [spawn]. *)
Record Manager := mkManager {
  sessions : Map.t ref;
  store : list SessionState;
  logged : list LogMessage;
  spawned : list SpawnCall
}.

Definition empty : Manager := mkManager [] [] [] [].

Definition log (m : LogMessage) (w : Manager) : Manager :=
  mkManager (sessions w) (store w) (logged w ++ [m]) (spawned w).

Definition update (r : ref) (f : SessionState -> SessionState) (w : Manager)
  : Manager :=
  mkManager (sessions w) (alter f r (store w)) (logged w) (spawned w).

Definition setSessions (m : Map.t ref) (w : Manager) : Manager :=
  mkManager m (store w) (logged w) (spawned w).

(** [this.sessions.get(sessionId)] with the object behind the reference. *)
Definition lookupSession (sessionId : jsstring) (w : Manager)
  : option (ref * SessionState) :=
  match Map.get sessionId (sessions w) with
  | Some r =>
      match store w !! r with
      | Some state => Some (r, state)
      | None => None
      end
  | None => None
  end.

(** Field assignments. *)
Definition setStatus (s : Status) (st : SessionState) : SessionState :=
  mkSession (id st) (process st) (pid st) s (outputBuffer st) (createdAt st)
    (lastActivity st).
Definition setLastActivity (now : Z) (st : SessionState) : SessionState :=
  mkSession (id st) (process st) (pid st) (status st) (outputBuffer st)
    (createdAt st) now.
Definition setOutputBuffer (b : list jsstring) (st : SessionState) : SessionState :=
  mkSession (id st) (process st) (pid st) (status st) b (createdAt st)
    (lastActivity st).
Definition setProcess (p : ChildProcess) (st : SessionState) : SessionState :=
  mkSession (id st) p (pid st) (status st) (outputBuffer st) (createdAt st)
    (lastActivity st).

(** *** The child-process handle *)

Definition hasExited (p : ChildProcess) : bool :=
  match exitCode p, signalCode p with
  | None, None => false
  | _, _ => true
  end.

(** [stdin.write(chunk)]: a stream that was ended takes nothing more. *)
Definition streamWrite (chunk : jsstring) (p : ChildProcess) : ChildProcess :=
  match stdin p with
  | Some s =>
      mkProcess
        (Some (if ended s then s else mkWritable (written s ++ [chunk]) false))
        (killed p) (exitCode p) (signalCode p) (signalsSent p)
  | None => p
  end.

(** [stdin?.end()] *)
Definition streamEnd (p : ChildProcess) : ChildProcess :=
  match stdin p with
  | Some s =>
      mkProcess (Some (mkWritable (written s) true))
        (killed p) (exitCode p) (signalCode p) (signalsSent p)
  | None => p
  end.

(** [process.kill(signal)]: the signal is delivered, and [killed] set,
    only while the child has not ended. *)
Definition processKill (sig : Signal) (p : ChildProcess) : ChildProcess :=
  if hasExited p then p
  else mkProcess (stdin p) true (exitCode p) (signalCode p)
         (signalsSent p ++ [sig]).

(** How a child ends: with an exit code or by a signal. *)
Inductive ExitReason :=
| Exited (code : Z)
| Signaled (sig : Signal).

(** The [code] argument of the ['exit'] listener. *)
Definition exitCodeOf (why : ExitReason) : option Z :=
  match why with Exited c => Some c | Signaled _ => None end.

(** What the runtime records on the handle before it emits ['exit']:
    the exit code, or the signal that ended the child.  The stdin stream
    is kept as it is, so that [written] also holds the chunks of
    [write] calls made after the child has ended. *)
Definition processExit (why : ExitReason) (p : ChildProcess) : ChildProcess :=
  match why with
  | Exited c => mkProcess (stdin p) (killed p) (Some c) (signalCode p) (signalsSent p)
  | Signaled s => mkProcess (stdin p) (killed p) (exitCode p) (Some s) (signalsSent p)
  end.

Section Manager.

Variable platform : Platform.

(** *** [appendOutput] *)

Fixpoint pushLines (lines buffer : list jsstring) : list jsstring :=
  match lines with
  | [] => buffer
  | [line] => buffer ++ [line]
  | line :: more => pushLines more (buffer ++ [line ++ EOL platform])
  end.

Definition appendOutput (now : Z) (text : jsstring) (state : SessionState)
  : SessionState :=
  let lines := split reNewline text in
  let buffer := pushLines lines (outputBuffer state) in
  let buffer :=
    if MAX_OUTPUT_LINES <? Z.of_nat (length buffer)
    then slice (- MAX_OUTPUT_LINES) None buffer
    else buffer in
  setLastActivity now (setOutputBuffer buffer state).

(** What one chunk adds to the buffer, and a run of [appendOutput] calls,
    each with the clock reading of its call. *)
Definition pieces (text : jsstring) : list jsstring :=
  pushLines (split reNewline text) [].

Definition appendAll (appends : list (Z * jsstring)) (state : SessionState)
  : SessionState :=
  fold_left (fun st a => appendOutput (fst a) (snd a) st) appends state.

(** *** [create] *)

(** What [spawn] hands back: a pid unless the process could not be
    started, and whether the handle has a stdin stream. *)
Record SpawnResult := mkSpawnResult {
  childPid : option Z;
  childStdin : bool
}.

Definition defaultArgs : list jsstring :=
  [utf16 "-c"; utf16 "--permission-mode=bypassPermissions";
   utf16 "--dangerously-skip-permissions"].

Definition create (options : SessionOptions) (now : Z) (child : SpawnResult)
    (w : Manager) : Manager * Outcome ref :=
  let sessionId := opt_id options in
  if Map.has sessionId (sessions w) then
    (w, Throw (DuplicateSessionError sessionId))
  else
    let w := log (LogCreating sessionId (cwd options)) w in
    let args := if (0 <? length (claudeArgs options))%nat
                then claudeArgs options else defaultArgs in
    let w := mkManager (sessions w) (store w) (logged w)
               (spawned w ++ [mkSpawn (utf16 "claude") args (cwd options)]) in
    match childPid child with
    | None => (w, Throw SpawnError)
    | Some p =>
        if p =? 0 then (w, Throw SpawnError)
        else
          let childProcess :=
            mkProcess (if childStdin child then Some (mkWritable [] false) else None)
              false None None [] in
          let state := mkSession sessionId childProcess p idle [] now now in
          let r := length (store w) in
          let w := mkManager (Map.set sessionId r (sessions w))
                     (store w ++ [state]) (logged w) (spawned w) in
          (log (LogStarted sessionId p) w, Return r)
    end.

(** *** The listeners [create] attaches *)

Inductive Event :=
| Data (r : ref) (chunk : jsstring)
| Exit (r : ref) (why : ExitReason)
| ErrorEvent (r : ref) (msg : jsstring).

(** An event of the child behind [r] runs the listener that [create]
    attached for it.  For ['exit'] the runtime has recorded on the handle
    how the child ended, and the listener gets the exit code. *)
Definition deliver (now : Z) (e : Event) (w : Manager) : Manager :=
  match e with
  | Data r chunk => update r (appendOutput now chunk) w
  | Exit r why =>
      match store w !! r with
      | Some state =>
          let w := update r (fun st => setProcess (processExit why (process st)) st) w in
          let w := log (LogExited (id state) (exitCodeOf why)) w in
          update r (setStatus offline) w
      | None => w
      end
  | ErrorEvent r msg =>
      match store w !! r with
      | Some state =>
          update r (setStatus offline) (log (LogError (id state) msg) w)
      | None => w
      end
  end.

(** *** [sendText] *)

Definition notRunning (state : SessionState) : bool :=
  match status state, stdin (process state) with
  | offline, _ => true
  | _, None => true
  | _, Some _ => false
  end.

Definition sendText (sessionId text : jsstring) (now : Z) (w : Manager)
  : Manager * Outcome unit :=
  match lookupSession sessionId w with
  | None => (w, Throw (NotFoundError sessionId))
  | Some (r, state) =>
      if notRunning state then (w, Throw (OfflineError sessionId))
      else
        let w := log (LogSendingText sessionId (slice 0 (Some 50) text)) w in
        let w := update r (fun st => setProcess (streamWrite (text ++ [LF]) (process st)) st) w in
        (update r (setLastActivity now) w, Return tt)
  end.

(** *** [sendControl] *)

(** The value of a property read. *)
Inductive JSValue :=
| JSUndefined
| JSString (s : jsstring)
| JSObject (name : jsstring).

Definition truthy (v : JSValue) : bool :=
  match v with
  | JSUndefined => false
  | JSString s => negb (strictEq s [])
  | JSObject _ => true
  end.

(** The string-keyed properties of [Object.prototype]. *)
Definition objectPrototype : list jsstring :=
  map utf16 ["constructor"; "__defineGetter__"; "__defineSetter__";
             "hasOwnProperty"; "__lookupGetter__"; "__lookupSetter__";
             "isPrototypeOf"; "propertyIsEnumerable"; "toString"; "valueOf";
             "__proto__"; "toLocaleString"]%string.

(** [controlMap[char]]: [controlMap] is an object literal, so the read
    finds its three own properties first and then follows the prototype
    chain to [Object.prototype]. *)
Definition controlMap (char : jsstring) : JSValue :=
  if strictEq char (utf16 "C-c") then JSString [0x03%N]
  else if strictEq char (utf16 "C-d") then JSString [0x04%N]
  else if strictEq char (utf16 "C-z") then JSString [0x1a%N]
  else if existsb (strictEq char) objectPrototype then JSObject char
  else JSUndefined.

Definition sendControl (sessionId char : jsstring) (now : Z) (w : Manager)
  : Manager * Outcome unit :=
  match lookupSession sessionId w with
  | None => (w, Throw (NotFoundError sessionId))
  | Some (r, state) =>
      if notRunning state then (w, Throw (OfflineError sessionId))
      else
        let controlChar := controlMap char in
        if negb (truthy controlChar) then (w, Throw (UnknownControlError char))
        else
          let w := log (LogSendingControl char sessionId) w in
          match controlChar with
          | JSString s =>
              let w := update r (fun st => setProcess (streamWrite s (process st)) st) w in
              (update r (setLastActivity now) w, Return tt)
          | _ => (w, Throw InvalidArgTypeError)
          end
  end.

(** *** [getOutput], [getAllOutput] and the detectors *)

Definition getOutput (sessionId : jsstring) (lines : Z) (w : Manager)
  : Outcome jsstring :=
  match lookupSession sessionId w with
  | None => Throw (NotFoundError sessionId)
  | Some (_, state) =>
      let recentLines := slice (- lines) None (outputBuffer state) in
      Return (join [] recentLines)
  end.

Definition getAllOutput (sessionId : jsstring) (w : Manager) : Outcome jsstring :=
  match lookupSession sessionId w with
  | None => Throw (NotFoundError sessionId)
  | Some (_, state) => Return (join [] (outputBuffer state))
  end.

Definition detectPermissionPrompt (sessionId : jsstring) (w : Manager)
  : Outcome (option PermissionPrompt) :=
  match getOutput sessionId 50 w with
  | Throw e => Throw e
  | Return output => Return (parsePermissionPrompt output)
  end.

Definition detectBypassWarning (sessionId : jsstring) (w : Manager)
  : Outcome bool :=
  match getOutput sessionId 50 w with
  | Throw e => Throw e
  | Return output =>
      Return (includes (utf16 "WARNING") output
              && includes (utf16 "Bypass Permissions mode") output)
  end.

(** *** [kill]

    [kill] awaits two timers.  What the children do meanwhile is given by
    the events of the two grace periods, each with the clock reading at
    its delivery.  The test [!state.process.killed] reads the flag that
    [process.kill] sets, not whether the child has ended. *)

Definition deliverTimed (es : list (Z * Event)) (w : Manager) : Manager :=
  fold_left (fun w e => deliver (fst e) (snd e) w) es w.

Definition isKilled (r : ref) (w : Manager) : bool :=
  match store w !! r with
  | Some state => killed (process state)
  | None => false
  end.

Definition signal (sig : Signal) (r : ref) (w : Manager) : Manager :=
  update r (fun st => setProcess (processKill sig (process st)) st) w.

(** Up to the first [await]: the lookup, the log line, [stdin?.end()]. *)
Definition killBegin (sessionId : jsstring) (w : Manager)
  : Manager * option ref :=
  match lookupSession sessionId w with
  | None => (w, None)
  | Some (r, state) =>
      let w := log (LogKilling sessionId (pid state)) w in
      (update r (fun st => setProcess (streamEnd (process st)) st) w, Some r)
  end.

(** After the first timer; the flag tells whether the second timer is set. *)
Definition killEscalate (r : ref) (w : Manager) : Manager * bool :=
  if negb (isKilled r w) then (signal SIGTERM r w, true) else (w, false).

(** After the second timer. *)
Definition killForce (r : ref) (w : Manager) : Manager :=
  if negb (isKilled r w) then signal SIGKILL r w else w.

(** The last three statements. *)
Definition killFinish (sessionId : jsstring) (r : ref) (w : Manager) : Manager :=
  let w := update r (setStatus offline) w in
  let w := setSessions (Map.delete sessionId (sessions w)) w in
  log (LogKilled sessionId) w.

Definition kill (sessionId : jsstring) (grace1 grace2 : list (Z * Event))
    (w : Manager) : Manager :=
  match killBegin sessionId w with
  | (w, None) => w
  | (w, Some r) =>
      let w := deliverTimed grace1 w in
      let (w, again) := killEscalate r w in
      let w := if again then killForce r (deliverTimed grace2 w) else w in
      killFinish sessionId r w
  end.

(** *** [list], [get], [isAlive], [updateStatus] *)

(** [list()]; the objects are given as they are at the time of the call. *)
Definition list_ (w : Manager) : list SessionState :=
  omap (fun r => store w !! r) (Map.values (sessions w)).

Definition get (sessionId : jsstring) (w : Manager) : option SessionState :=
  match lookupSession sessionId w with
  | Some (_, state) => Some state
  | None => None
  end.

Definition isAlive (sessionId : jsstring) (w : Manager) : Manager * bool :=
  match lookupSession sessionId w with
  | None => (w, false)
  | Some (r, state) =>
      if killed (process state)
         || match exitCode (process state) with Some _ => true | None => false end
      then (update r (setStatus offline) w, false)
      else (w, true)
  end.

Definition updateStatus (sessionId : jsstring) (s : Status) (now : Z)
    (w : Manager) : Manager :=
  match lookupSession sessionId w with
  | Some (r, _) => update r (setLastActivity now) (update r (setStatus s) w)
  | None => w
  end.

(** *** [shutdown]

    [map] starts every [kill] and each runs to its first [await]; the
    timers then fire in the order they were set, and each [kill] goes on
    from its timer. *)

Fixpoint beginAll (ids : list jsstring) (w : Manager)
  : Manager * list (jsstring * ref) :=
  match ids with
  | [] => (w, [])
  | sessionId :: more =>
      match killBegin sessionId w with
      | (w, Some r) =>
          let (w, pending) := beginAll more w in (w, (sessionId, r) :: pending)
      | (w, None) => beginAll more w
      end
  end.

(** The first timers: a [kill] that sets no second timer finishes here. *)
Fixpoint escalateAll (pending : list (jsstring * ref)) (w : Manager)
  : Manager * list (jsstring * ref) :=
  match pending with
  | [] => (w, [])
  | p :: more =>
      match killEscalate (snd p) w with
      | (w, true) =>
          let (w, waiting) := escalateAll more w in (w, p :: waiting)
      | (w, false) => escalateAll more (killFinish (fst p) (snd p) w)
      end
  end.

(** The second timers. *)
Fixpoint forceAll (waiting : list (jsstring * ref)) (w : Manager) : Manager :=
  match waiting with
  | [] => w
  | p :: more => forceAll more (killFinish (fst p) (snd p) (killForce (snd p) w))
  end.

(** The [kill]s a [shutdown] starts that find their session. *)
Definition terminating (w : Manager) : list (jsstring * ref) :=
  snd (beginAll (Map.keys (sessions w)) (log LogShuttingDown w)).

Definition shutdown (grace1 grace2 : list (Z * Event)) (w : Manager) : Manager :=
  let w := log LogShuttingDown w in
  let (w, pending) := beginAll (Map.keys (sessions w)) w in
  let w :=
    match pending with
    | [] => w
    | _ :: _ =>
        let (w, waiting) := escalateAll pending (deliverTimed grace1 w) in
        match waiting with
        | [] => w
        | _ :: _ => forceAll waiting (deliverTimed grace2 w)
        end
    end in
  log LogAllTerminated w.

(** *** The interface as a whole *)

Inductive Call :=
| Create (options : SessionOptions) (now : Z) (child : SpawnResult)
| SendText (sessionId text : jsstring) (now : Z)
| SendControl (sessionId char : jsstring) (now : Z)
| GetOutput (sessionId : jsstring) (lines : Z)
| GetAllOutput (sessionId : jsstring)
| DetectPermissionPrompt (sessionId : jsstring)
| DetectBypassWarning (sessionId : jsstring)
| Kill (sessionId : jsstring) (grace1 grace2 : list (Z * Event))
| List
| Get (sessionId : jsstring)
| IsAlive (sessionId : jsstring)
| UpdateStatus (sessionId : jsstring) (s : Status) (now : Z)
| Shutdown (grace1 grace2 : list (Z * Event))
| Emit (now : Z) (e : Event).

(** The manager after a call, or after an event of a child ([Emit]). *)
Definition step (w : Manager) (c : Call) : Manager :=
  match c with
  | Create options now child => fst (create options now child w)
  | SendText sessionId text now => fst (sendText sessionId text now w)
  | SendControl sessionId char now => fst (sendControl sessionId char now w)
  | GetOutput _ _ | GetAllOutput _ | DetectPermissionPrompt _
  | DetectBypassWarning _ | List | Get _ => w
  | Kill sessionId grace1 grace2 => kill sessionId grace1 grace2 w
  | IsAlive sessionId => fst (isAlive sessionId w)
  | UpdateStatus sessionId s now => updateStatus sessionId s now w
  | Shutdown grace1 grace2 => shutdown grace1 grace2 w
  | Emit now e => deliver now e w
  end.

Definition steps (w : Manager) (cs : list Call) : Manager := fold_left step cs w.

End Manager.

(** ** Invariants and the predicates of the statements *)

(** The object behind [r] exists and satisfies [Q]. *)
Definition objAt (r : ref) (w : Manager) (Q : SessionState -> Prop) : Prop :=
  exists state, store w !! r = Some state /\ Q state.

(** Every registry entry refers to an object that carries the entry's key
    as its [id]. *)
Definition wf (w : Manager) : Prop :=
  Forall (fun kr => objAt (snd kr) w (fun state => id state = fst kr)) (sessions w).

(** A property of session objects that the listeners and [kill] keep:
    it survives every assignment they make. *)
Record stable (p : Platform) (Q : SessionState -> Prop) : Prop := mkStable {
  stable_append : forall now text st, Q st -> Q (appendOutput p now text st);
  stable_offline : forall st, Q st -> Q (setStatus offline st);
  stable_activity : forall now st, Q st -> Q (setLastActivity now st);
  stable_exit : forall why st, Q st -> Q (setProcess (processExit why (process st)) st);
  stable_end : forall st, Q st -> Q (setProcess (streamEnd (process st)) st);
  stable_kill : forall sig st, Q st -> Q (setProcess (processKill sig (process st)) st)
}.

(** [w'] comes after [w] with no registry entry added and every stable
    property of every object kept. *)
Definition evolves (p : Platform) (w w' : Manager) : Prop :=
  (forall kr, kr ∈ sessions w' -> kr ∈ sessions w)
  /\ (forall Q, stable p Q -> forall r, objAt r w Q -> objAt r w' Q).

Definition isOffline (state : SessionState) : Prop := status state = offline.

(** The chunks of the [stdin.write] calls made on the child's stdin. *)
Definition stdinWritten (state : SessionState) : list jsstring :=
  match stdin (process state) with
  | Some s => written s
  | None => []
  end.

(** Whether the call [c], made on [w], assigns a status other than
    [offline] to the object behind [r]: an [updateStatus] with [idle] or
    [working], on an id that the registry holds for [r] at that time. *)
Definition revives (r : ref) (w : Manager) (c : Call) : bool :=
  match c with
  | UpdateStatus sessionId s _ =>
      match s with
      | offline => false
      | _ => bool_decide (Map.get sessionId (sessions w) = Some r)
      end
  | _ => false
  end.

(** Whether some call of the run [cs] from [w] does. *)
Fixpoint revived (p : Platform) (r : ref) (w : Manager) (cs : list Call) : bool :=
  match cs with
  | [] => false
  | c :: cs => revives r w c || revived p r (step p w c) cs
  end.

(** An [updateStatus] with [idle] or [working] on the id [k]. *)
Definition setsActive (k : jsstring) (c : Call) : Prop :=
  match c with
  | UpdateStatus sessionId s _ => sessionId = k /\ s <> offline
  | _ => False
  end.

(** The first log line of the [kill] of [sessionId] on [w]: none when
    the registry lacks the id. *)
Definition killingLine (w : Manager) (sessionId : jsstring) : list LogMessage :=
  match lookupSession sessionId w with
  | Some (_, state) => [LogKilling sessionId (pid state)]
  | None => []
  end.

Definition isKilling (m : LogMessage) : Prop :=
  match m with LogKilling _ _ => True | _ => False end.

(** What a [kill] leaves of the child's handle: stdin, if there is one,
    has been ended, and [process.kill] has delivered a signal unless the
    child had ended by itself. *)
Definition stdinEnded (state : SessionState) : Prop :=
  match stdin (process state) with
  | Some s => ended s = true
  | None => True
  end.

Definition signalled (state : SessionState) : Prop :=
  killed (process state) = true \/ hasExited (process state) = true.

(** Whether [spawn] handed back a pid that [create] accepts. *)
Definition spawns (child : SpawnResult) : bool :=
  match childPid child with
  | Some pid => negb (pid =? 0)
  | None => false
  end.

(** The ids that are registered, as the calls made so far tell: a
    [create] of a free id whose child was spawned puts its id last, a
    [kill] takes its id out, a [shutdown] takes out every id, and no
    other call and no event of a child changes them. *)
Definition registeredAfter (ids : list jsstring) (c : Call) : list jsstring :=
  match c with
  | Create options _ child =>
      if bool_decide (opt_id options ∈ ids) then ids
      else if spawns child then ids ++ [opt_id options] else ids
  | Kill sessionId _ _ => filter (fun k => k <> sessionId) ids
  | Shutdown _ _ => []
  | _ => ids
  end.

(** The ids created in a run and not removed since, in the order of
    their creation. *)
Definition creationOrder (cs : list Call) : list jsstring :=
  fold_left registeredAfter cs [].

(** ** Scenarios *)

(** A manager with one session, ["s"], whose child has written [chunks]. *)
Definition sessionOptions : SessionOptions :=
  mkOptions (utf16 "s") (utf16 "/work") [].

Definition started : Manager :=
  fst (create sessionOptions 1000 (mkSpawnResult (Some 4242) true) empty).

Definition streamed (p : Platform) (chunks : list jsstring) : Manager :=
  fold_left (fun w chunk => deliver p 1001 (Data 0%nat chunk) w) chunks started.

(** The lines of the prompt scenario and the text a child prints for them. *)
Definition scenarioLines : list jsstring :=
  map utf16 ["Bash(ls -la)"; EmptyString; "Do you want to proceed?"; "❯ 1. Yes";
             "  2. No"; "Esc to cancel"]%string.

Definition printed (lines : list jsstring) : jsstring := join [LF] lines.

Definition yesNo : list PromptOption :=
  [mkOption (utf16 "1") (utf16 "Yes"); mkOption (utf16 "2") (utf16 "No")].

(** The negative scenarios: the prompt without its footer line and its
    cursor line, and a question with a single numbered option. *)
Definition staleLines : list jsstring :=
  map utf16 ["Bash(ls -la)"; EmptyString; "Do you want to proceed?"; "  2. No"]%string.

Definition singleOptionLines : list jsstring :=
  map utf16 ["Bash(ls -la)"; EmptyString; "Do you want to proceed?"; "❯ 1. Yes";
             "Esc to cancel"]%string.

(** The buffer [appendOutput] holds once a child has printed [lines]. *)
Definition buffered (p : Platform) (lines : list jsstring) : list jsstring :=
  pushLines p lines [].

Definition scenarioPrompt : PermissionPrompt :=
  mkPrompt Unknown (printed (firstn 5 scenarioLines)) yesNo.

Definition newSession : SessionState :=
  mkSession (utf16 "s") (mkProcess (Some (mkWritable [] false)) false None None [])
    4242 idle [] 1000 1000.


(** Managers after an exit, and with a second session. *)
Definition exitedWith (p : Platform) (why : ExitReason) : Manager :=
  deliver p 2000 (Exit 0%nat why) started.

Definition otherOptions : SessionOptions :=
  mkOptions (utf16 "t") (utf16 "/work") [utf16 "--verbose"].

Definition twoSessions : Manager :=
  fst (create otherOptions 1500 (mkSpawnResult (Some 4343) true) started).



(** What the children do while a [kill] waits. *)
Definition graceEvents : list (Z * Event) :=
  [(2050, Data 0%nat (utf16 "bye")); (2060, Exit 0%nat (Exited 0))].

(** A question, two options without cursor marker, [n] empty lines and
    the footer. *)
Definition footerAfter (n : nat) : list jsstring :=
  map utf16 ["Do you want to proceed?"; "1. Yes"; "2. No"]%string
    ++ repeat [] n ++ [utf16 "Esc to cancel"].

(** The lines of a text read off directly: a cut at every line feed, a
    carriage return right before it dropped.  [split] by [/\r?\n/]
    computes this (lemma [split_reNewline]). *)
Fixpoint linesFrom (acc s : jsstring) : list jsstring :=
  match s with
  | [] => [rev acc]
  | c :: t =>
      if (c =? LF)%N then rev acc :: linesFrom [] t
      else if (c =? CR)%N then
        match t with
        | d :: t' =>
            if (d =? LF)%N then rev acc :: linesFrom [] t'
            else linesFrom (c :: acc) t
        | [] => linesFrom (c :: acc) t
        end
      else linesFrom (c :: acc) t
  end.

(** A line as [split] yields it and [join] gives it back: no line feed
    inside, no carriage return at the end. *)
Definition isLine (line : jsstring) : Prop :=
  (LF ∉ line) /\ last line <> Some CR.

(** The ['data'] events of the child behind [r] that writes the chunks. *)
Definition dataEvents (r : ref) (appends : list (Z * jsstring)) : list (Z * Event) :=
  map (fun a => (fst a, Data r (snd a))) appends.

Definition crlfLines : list jsstring :=
  [utf16 "first"; []; utf16 "a lone " ++ [CR] ++ utf16 " inside"; utf16 "last"].

Definition twoChunks : list (Z * jsstring) :=
  [(1001, utf16 "one" ++ [LF] ++ utf16 "tw"); (1002, utf16 "o" ++ [LF])].

(** A property of session objects that every assignment of the source
    keeps. *)
Record keeps (p : Platform) (Q : SessionState -> Prop) : Prop := mkKeeps {
  keeps_append : forall now text st, Q st -> Q (appendOutput p now text st);
  keeps_status : forall s st, Q st -> Q (setStatus s st);
  keeps_activity : forall now st, Q st -> Q (setLastActivity now st);
  keeps_process : forall proc st, Q st -> Q (setProcess proc st)
}.

(** [w'] comes after [w] with the same objects, each with the kept
    properties it had, and a registry that has lost entries at most. *)
Definition follows (p : Platform) (w w' : Manager) : Prop :=
  length (store w') = length (store w)
  /\ sublist (sessions w') (sessions w)
  /\ (forall Q, keeps p Q -> forall r, objAt r w Q -> objAt r w' Q).

(** The object a [create] makes. *)
Definition created (options : SessionOptions) (now : Z) (child : SpawnResult)
    (pid : Z) : SessionState :=
  mkSession (opt_id options)
    (mkProcess (if childStdin child then Some (mkWritable [] false) else None)
       false None None [])
    pid idle [] now now.

(** Some calls and events of a day, on two sessions. *)
Definition busyCalls : list Call :=
  [Create sessionOptions 1000 (mkSpawnResult (Some 4242) true);
   Create otherOptions 1100 (mkSpawnResult (Some 4343) true);
   Emit 1200 (Data 0%nat (utf16 "hello" ++ [LF]));
   SendText (utf16 "s") (utf16 "list the files") 1300;
   UpdateStatus (utf16 "s") working 1400;
   SendControl (utf16 "t") (utf16 "C-c") 1500;
   Emit 1600 (Exit 1%nat (Signaled SIGINT));
   Kill (utf16 "s") [(1700, Exit 0%nat (Exited 0))] [];
   Create sessionOptions 1800 (mkSpawnResult (Some 4444) true);
   IsAlive (utf16 "t")].

(** The [spawn] call of a [create]. *)
Definition spawnCall (options : SessionOptions) : SpawnCall :=
  mkSpawn (utf16 "claude")
    (match claudeArgs options with [] => defaultArgs | _ :: _ => claudeArgs options end)
    (cwd options).

Definition sendTextCalls (sessionId : jsstring) (msgs : list (jsstring * Z))
  : list Call :=
  map (fun m => SendText sessionId (fst m) (snd m)) msgs.

Definition twoMessages : list (jsstring * Z) :=
  [(utf16 "first", 1100); (utf16 "second", 1200)].

(** What the listeners leave of a child-process handle: the [killed]
    flag, the signals sent and the stdin stream as they were, and an
    ended child ended. *)
Definition sameHandle (state state' : SessionState) : Prop :=
  killed (process state') = killed (process state)
  /\ signalsSent (process state') = signalsSent (process state)
  /\ stdin (process state') = stdin (process state)
  /\ (hasExited (process state) = true -> hasExited (process state') = true).

(** No white space in front. *)
Definition startsClean (s : jsstring) : Prop :=
  match s with
  | c :: _ => isSpace c = false
  | [] => True
  end.

(** Forty lines of output after a question: the question has scrolled
    out of the detector's window. *)
Definition scrolledLines : list jsstring :=
  scenarioLines ++ repeat (utf16 "...") 40.

Definition warningText : jsstring :=
  utf16 "WARNING: Claude is running in Bypass Permissions mode".

(** * Properties *)

(** ** The prompt detector *)

(** The marker characters of the patterns, as the source spells them. *)
Example marker_characters :
  utf16 "❯>●◐·" = [SELECTOR; GREATER; BULLET; HALF_CIRCLE; MIDDLE_DOT].
Proof. reflexivity. Qed.

Lemma findProceed_found lines n i idx :
  findProceed lines n i = idx -> idx <> -1 ->
  i - Z.of_nat n < idx <= i
  /\ test reProceed (lineAt lines idx) = true
  /\ (forall j, idx < j <= i -> test reProceed (lineAt lines j) = false).
Proof.
  revert i. induction n as [|n IH]; intros i Hfind Hidx; simpl in Hfind.
  - congruence.
  - destruct (test reProceed (lineAt lines i)) eqn:Hline.
    + subst idx. split; [lia |]. split; [assumption |]. intros j Hj. lia.
    + destruct (IH _ Hfind Hidx) as (Hrange & Htest & Hnewer).
      split; [lia |]. split; [assumption |].
      intros j Hj. destruct (Z.eq_dec j i) as [-> | Hne]; [assumption |].
      apply Hnewer. lia.
Qed.

Lemma verifyFooter_witness lines n i sel hasFooter hasSelector :
  verifyFooter lines n i sel = (hasFooter, hasSelector) ->
  hasFooter = true \/ hasSelector = true ->
  sel = true \/
  exists j, i <= j < i + Z.of_nat n /\
            (test reFooter (lineAt lines j) = true
             \/ test reSelector (lineAt lines j) = true).
Proof.
  revert i sel. induction n as [|n IH]; intros i sel Hscan Hflag; simpl in Hscan.
  - injection Hscan as <- <-. destruct Hflag; [discriminate | now left].
  - destruct (test reFooter (lineAt lines i)) eqn:Hfooter.
    + right. exists i. split; [lia | now left].
    + destruct (IH _ _ Hscan Hflag) as [Hsel | (j & Hj & Hline)].
      * destruct (test reSelector (lineAt lines i)) eqn:Hcursor.
        -- right. exists i. split; [lia | now right].
        -- now left.
      * right. exists j. split; [lia | assumption].
Qed.

(** What [parsePermissionPrompt] has checked when it returns a prompt:
    [idx] is the newest question line among the last 30 lines. *)
Lemma parsePermissionPrompt_gates output prompt :
  parsePermissionPrompt output = Some prompt ->
  let lines := split reNewline output in
  let len := Z.of_nat (length lines) in
  exists idx : Z,
    0 <= idx < len /\ len - 30 <= idx
    /\ test reProceed (lineAt lines idx) = true
    /\ (forall j, idx < j < len -> test reProceed (lineAt lines j) = false)
    /\ (exists j, idx < j < idx + 15 /\ j < len
                  /\ (test reFooter (lineAt lines j) = true
                      \/ test reSelector (lineAt lines j) = true))
    /\ options prompt =
         collectOptions lines (upCount (idx + 1) (Z.min len (idx + 10))) (idx + 1) []
    /\ (2 <= length (options prompt))%nat.
Proof.
  intros Hparse lines len. unfold parsePermissionPrompt in Hparse.
  change (split reNewline output) with lines in Hparse.
  change (Z.of_nat (length lines)) with len in Hparse.
  set (idx := findProceed lines _ _) in Hparse.
  destruct (idx =? -1) eqn:Hidx; [discriminate |].
  apply Z.eqb_neq in Hidx.
  destruct (findProceed_found lines _ _ idx eq_refl Hidx)
    as (Hrange & Hquestion & Hnewest).
  unfold downCount in Hrange.
  destruct (verifyFooter lines _ (idx + 1) false) as [hasFooter hasSelector] eqn:Hscan.
  destruct (negb hasFooter && negb hasSelector) eqn:Hgate; [discriminate |].
  set (opts := collectOptions lines _ _ _) in Hparse.
  destruct (Z.of_nat (length opts) <? 2) eqn:Hcount; [discriminate |].
  injection Hparse as <-. cbn [options].
  apply Z.ltb_ge in Hcount.
  exists idx. split; [lia |]. split; [lia |]. split; [assumption |].
  split; [intros j Hj; apply Hnewest; lia |]. split.
  - destruct (verifyFooter_witness _ _ _ _ _ _ Hscan) as [? | (j & Hj & Hline)].
    + destruct hasFooter, hasSelector; simpl in Hgate; auto; discriminate.
    + discriminate.
    + unfold upCount in Hj. exists j. split; [lia |]. split; [lia | assumption].
  - split; [reflexivity | lia].
Qed.

Lemma detectPermissionPrompt_found sessionId w r state :
  lookupSession sessionId w = Some (r, state) ->
  detectPermissionPrompt sessionId w =
    Return (parsePermissionPrompt
              (join [] (slice (-50) None (outputBuffer state)))).
Proof.
  intros Hfound. unfold detectPermissionPrompt, getOutput. now rewrite Hfound.
Qed.

(** C1 (as amended).  A session whose buffer holds the six scenario lines,
    framed as [appendOutput] stores them, has a prompt detected; its
    options are exactly [{1, Yes}] and [{2, No}] in that order, and its
    tool is the ["Unknown"] sentinel: the line [Bash(ls -la)] has no bullet
    marker before the name and no blank after it, so neither tool pattern
    matches it. *)
Theorem scenario_prompt_detected (p : Platform) sessionId w r state :
  lookupSession sessionId w = Some (r, state) ->
  outputBuffer state = buffered p scenarioLines ->
  detectPermissionPrompt sessionId w = Return (Some scenarioPrompt)
  /\ tool scenarioPrompt = Unknown
  /\ options scenarioPrompt = yesNo.
Proof.
  intros Hfound Hbuffer.
  rewrite (detectPermissionPrompt_found _ _ _ _ Hfound), Hbuffer.
  split; [| split; reflexivity].
  destruct p; vm_compute; reflexivity.
Qed.

Lemma scenario_prompt_detected_witness :
  lookupSession (utf16 "s") (streamed win32 [printed scenarioLines])
    = Some (0%nat, mkSession (utf16 "s")
                     (mkProcess (Some (mkWritable [] false)) false None None [])
                     4242 idle (buffered win32 scenarioLines) 1000 1001)
  /\ detectPermissionPrompt (utf16 "s") (streamed win32 [printed scenarioLines])
     = Return (Some scenarioPrompt).
Proof.
  split; [vm_compute; reflexivity |].
  refine (proj1 (scenario_prompt_detected win32 (utf16 "s")
                   (streamed win32 [printed scenarioLines]) 0%nat _ _ _)).
  - vm_compute; reflexivity.
  - vm_compute; reflexivity.
Defined.

(** The claim as the specification has it fails on the scenario: no prompt
    with a tool other than the sentinel is returned. *)
Lemma scenario_tool_is_not_bash :
  ~ exists prompt,
      detectPermissionPrompt (utf16 "s") (streamed posix [printed scenarioLines])
        = Return (Some prompt)
      /\ tool prompt <> Unknown
      /\ options prompt = yesNo.
Proof.
  intros (prompt & Hdetect & Htool & _).
  vm_compute in Hdetect. injection Hdetect as <-.
  apply Htool. vm_compute. reflexivity.
Qed.

(** Six buffer entries without the line framing are one line to the
    parser, and no prompt is found in it. *)
Example scenario_unframed_lines :
  detectPermissionPrompt (utf16 "s") (streamed posix scenarioLines) = Return None.
Proof. vm_compute. reflexivity. Qed.

(** With the bullet marker in front, the tool name is read off the line. *)
Example bullet_line_names_the_tool :
  option_map tool
    (parsePermissionPrompt (printed (utf16 "● Bash(ls -la)" :: tl scenarioLines)))
  = Some (utf16 "Bash").
Proof. vm_compute. reflexivity. Qed.

(** The footer loop reads the 14 lines after the question: a footer on
    the 14th is seen, one on the 15th is not. *)
Example footer_window :
  option_map options (parsePermissionPrompt (printed (footerAfter 11)))
    = Some [mkOption (utf16 "1") (utf16 "Yes"); mkOption (utf16 "2") (utf16 "No")]
  /\ parsePermissionPrompt (printed (footerAfter 12)) = None.
Proof. split; vm_compute; reflexivity. Qed.

(** C6.  A prompt is reported only if both gates pass: a footer phrase or
    a cursor marker at the start of a line among the lines after the
    matched question line (the loop reads the next 14, so within 15), and
    at least two collected options.  The scenario without footer line and
    cursor line, and the one with a single numbered option, yield no
    prompt. *)
Theorem detector_gates :
  (forall output prompt,
     parsePermissionPrompt output = Some prompt ->
     let lines := split reNewline output in
     let len := Z.of_nat (length lines) in
     exists idx : Z,
       0 <= idx < len /\ len - 30 <= idx
       /\ test reProceed (lineAt lines idx) = true
       /\ (forall j, idx < j < len -> test reProceed (lineAt lines j) = false)
       /\ (exists j, idx < j <= idx + 15 /\ j < len
                     /\ (test reFooter (lineAt lines j) = true
                         \/ test reSelector (lineAt lines j) = true))
       /\ options prompt =
            collectOptions lines (upCount (idx + 1) (Z.min len (idx + 10)))
              (idx + 1) []
       /\ (2 <= length (options prompt))%nat)
  /\ (forall p, detectPermissionPrompt (utf16 "s") (streamed p [printed staleLines])
                = Return None)
  /\ (forall p, detectPermissionPrompt (utf16 "s")
                  (streamed p [printed singleOptionLines]) = Return None).
Proof.
  split; [| split].
  - intros output prompt Hparse lines len.
    pose proof (parsePermissionPrompt_gates _ _ Hparse) as Hgates.
    cbv zeta in Hgates. fold lines in Hgates. fold len in Hgates.
    destruct Hgates
      as (idx & Hidx & Hwindow & Hquestion & Hnewest
          & (j & Hj & Hlen & Hline) & Hopts & Hcount).
    exists idx. repeat split; try assumption; try lia.
    exists j. repeat split; try assumption; lia.
  - intros []; vm_compute; reflexivity.
  - intros []; vm_compute; reflexivity.
Qed.

Lemma detector_gates_witness :
  parsePermissionPrompt (printed scenarioLines) = Some scenarioPrompt
  /\ exists idx : Z,
       test reProceed (lineAt (split reNewline (printed scenarioLines)) idx) = true
       /\ (2 <= length (options scenarioPrompt))%nat.
Proof.
  assert (Hparse : parsePermissionPrompt (printed scenarioLines)
                   = Some scenarioPrompt) by (vm_compute; reflexivity).
  split; [exact Hparse |].
  pose proof (proj1 detector_gates (printed scenarioLines) scenarioPrompt Hparse)
    as Hgates.
  cbv zeta in Hgates.
  destruct Hgates as (idx & _ & _ & Hquestion & _ & _ & _ & Hcount).
  exists idx. split; assumption.
Defined.

(** ** The output buffer *)




Lemma slice_last {A} (l : list A) :
  slice (- MAX_OUTPUT_LINES) None l = lastLines 200 l.
Proof.
  unfold slice, relativeIndex, lastLines, MAX_OUTPUT_LINES.
  change (- (200) <? 0) with true. cbv iota.
  set (len := Z.of_nat (length l)).
  replace (Z.to_nat (Z.max (len + - (200)) 0)) with (length l - 200)%nat by lia.
  apply firstn_all2. rewrite length_skipn. lia.
Qed.

Lemma lastLines_short {A} (l : list A) :
  (length l <= 200)%nat -> lastLines 200 l = l.
Proof.
  intros Hlen. unfold lastLines. now replace (length l - 200)%nat with 0%nat by lia.
Qed.

Lemma lastLines_length {A} (l : list A) : (length (lastLines 200 l) <= 200)%nat.
Proof. unfold lastLines. rewrite length_skipn. lia. Qed.

Lemma lastLines_app {A} (a b : list A) :
  lastLines 200 (lastLines 200 a ++ b) = lastLines 200 (a ++ b).
Proof.
  destruct (Nat.le_gt_cases (length a) 200) as [Hshort | Hlong].
  - now rewrite (lastLines_short a).
  - unfold lastLines. rewrite !length_app, length_skipn.
    rewrite !skipn_app, skipn_skipn, length_skipn.
    f_equal; f_equal; lia.
Qed.

Section Buffer.

Variable platform : Platform.

Lemma pushLines_app lines buffer :
  pushLines platform lines buffer = buffer ++ pushLines platform lines [].
Proof.
  revert buffer. induction lines as [|line more IH]; intros buffer.
  - now rewrite app_nil_r.
  - destruct more as [|next more]; [reflexivity |].
    cbn [pushLines] in *. rewrite IH, (IH ([] ++ _)).
    now rewrite <- app_assoc.
Qed.

Lemma appendOutput_buffer now text state :
  outputBuffer (appendOutput platform now text state)
  = lastLines 200 (outputBuffer state ++ pieces platform text).
Proof.
  unfold appendOutput, pieces. cbn [setLastActivity setOutputBuffer outputBuffer].
  rewrite (pushLines_app _ (outputBuffer state)).
  set (buffer := outputBuffer state ++ _).
  destruct (MAX_OUTPUT_LINES <? Z.of_nat (length buffer)) eqn:Hover.
  - apply slice_last.
  - apply Z.ltb_ge in Hover. unfold MAX_OUTPUT_LINES in Hover.
    symmetry. apply lastLines_short. lia.
Qed.

(** The truncation law for chunks of any shape. *)
Lemma appendAll_buffer appends state :
  (length (outputBuffer state) <= 200)%nat ->
  outputBuffer (appendAll platform appends state)
  = lastLines 200
      (outputBuffer state
         ++ concat (map (fun a => pieces platform (snd a)) appends)).
Proof.
  revert state. induction appends as [|[now text] appends IH]; intros state Hlen.
  - cbn. rewrite app_nil_r. symmetry. now apply lastLines_short.
  - change (appendAll platform ((now, text) :: appends) state)
      with (appendAll platform appends (appendOutput platform now text state)).
    cbn [map concat snd].
    rewrite IH, appendOutput_buffer.
    + now rewrite lastLines_app, app_assoc.
    + rewrite appendOutput_buffer. apply lastLines_length.
Qed.




End Buffer.


(** Beyond the bound the oldest lines go: 201 appends leave the last 200. *)
Example ring_buffer_overflow :
  let appends := map (fun n => (Z.of_nat n, [N.of_nat n])) (seq 11 201) in
  outputBuffer (appendAll posix appends newSession)
  = map (fun n => [N.of_nat n]) (seq 12 200).
Proof. vm_compute. reflexivity. Qed.

(** A chunk that ends in a line feed adds its line and an empty entry. *)
Example terminated_chunk :
  pieces posix (utf16 "one" ++ [LF]) = [utf16 "one" ++ [LF]; []].
Proof. vm_compute. reflexivity. Qed.

(** ** The registry and the object store *)

Lemma strictEq_true a b : strictEq a b = true <-> a = b.
Proof. unfold strictEq. apply bool_decide_eq_true. Qed.

Lemma strictEq_false a b : strictEq a b = false <-> a <> b.
Proof. unfold strictEq. apply bool_decide_eq_false. Qed.

Section MapFacts.
Context {V : Type}.
Implicit Types (m : Map.t V) (k : jsstring).

Lemma Map_delete_elem k m kr : kr ∈ Map.delete k m -> kr ∈ m /\ fst kr <> k.
Proof.
  induction m as [|[k' v'] m IH]; cbn [Map.delete]; intros Hin.
  - now apply elem_of_nil in Hin.
  - destruct (strictEq k k') eqn:Hk.
    + destruct (IH Hin). split; [now right | assumption].
    + apply strictEq_false in Hk.
      apply elem_of_cons in Hin as [-> | Hin].
      * split; [left | cbn; congruence].
      * destruct (IH Hin). split; [now right | assumption].
Qed.

Lemma Map_get_elem k m v : Map.get k m = Some v -> (k, v) ∈ m.
Proof.
  induction m as [|[k' v'] m IH]; cbn [Map.get]; intros Hget; [discriminate |].
  destruct (strictEq k k') eqn:Hk.
  - apply strictEq_true in Hk. injection Hget as ->. subst. left.
  - right. auto.
Qed.

Lemma Map_get_key k m : k ∈ Map.keys m -> exists v, Map.get k m = Some v.
Proof.
  induction m as [|[k' v'] m IH]; cbn; intros Hin.
  - now apply elem_of_nil in Hin.
  - destruct (strictEq k k') eqn:Hk; [eauto |].
    apply strictEq_false in Hk.
    apply elem_of_cons in Hin as [? | Hin]; [congruence | auto].
Qed.

Lemma Map_get_delete k m : Map.get k (Map.delete k m) = None.
Proof.
  induction m as [|[k' v'] m IH]; cbn; [reflexivity |].
  destruct (strictEq k k') eqn:Hk; [assumption |].
  cbn. now rewrite Hk.
Qed.

Lemma Map_set_fresh k v m : Map.get k m = None -> Map.set k v m = m ++ [(k, v)].
Proof.
  induction m as [|[k' v'] m IH]; cbn; intros Hget; [reflexivity |].
  destruct (strictEq k k'); [discriminate |]. now rewrite IH.
Qed.
End MapFacts.

Lemma objAt_update r r' f w (Q : SessionState -> Prop) :
  (forall st, Q st -> Q (f st)) -> objAt r w Q -> objAt r (update r' f w) Q.
Proof.
  intros Hf (st & Hst & HQ). unfold objAt, update. cbn [store].
  destruct (decide (r' = r)) as [-> | Hne].
  - rewrite list_lookup_alter_eq, Hst. cbn. eauto.
  - rewrite list_lookup_alter_ne by assumption. eauto.
Qed.


Lemma objAt_update_set r f w (Q : SessionState -> Prop) :
  (forall st, Q (f st)) -> objAt r w (fun _ => True) -> objAt r (update r f w) Q.
Proof.
  intros Hf (st & Hst & _). unfold objAt, update. cbn [store].
  rewrite list_lookup_alter_eq, Hst. cbn. eauto.
Qed.

Lemma lookupSession_Some sessionId w r state :
  lookupSession sessionId w = Some (r, state) ->
  Map.get sessionId (sessions w) = Some r /\ store w !! r = Some state.
Proof.
  unfold lookupSession. intros Hfound.
  destruct (Map.get sessionId (sessions w)) as [r' |]; [| discriminate].
  destruct (store w !! r') as [st |] eqn:Hst; [| discriminate].
  injection Hfound as -> ->. auto.
Qed.

Lemma lookupSession_wf sessionId w r :
  wf w -> Map.get sessionId (sessions w) = Some r ->
  exists state, lookupSession sessionId w = Some (r, state) /\ id state = sessionId.
Proof.
  intros Hwf Hget. unfold lookupSession. rewrite Hget.
  apply Map_get_elem in Hget.
  unfold wf in Hwf. rewrite Forall_forall in Hwf.
  destruct (Hwf _ Hget) as (st & Hst & Hid). cbn in Hst, Hid.
  rewrite Hst. eauto.
Qed.

(** ** What the listeners and [kill] keep *)

Section Evolution.

Variable p : Platform.

Lemma evolves_refl w : evolves p w w.
Proof. split; auto. Qed.

Lemma evolves_trans w1 w2 w3 :
  evolves p w1 w2 -> evolves p w2 w3 -> evolves p w1 w3.
Proof. intros [Hs1 Ho1] [Hs2 Ho2]. split; eauto. Qed.

Lemma evolves_update w0 r f w :
  (forall Q, stable p Q -> forall st, Q st -> Q (f st)) ->
  evolves p w0 w -> evolves p w0 (update r f w).
Proof.
  intros Hf Hw. apply (evolves_trans _ _ _ Hw).
  split; [intros kr Hin; exact Hin |].
  intros Q HQ r'. apply objAt_update. intros st. now apply Hf.
Qed.

Lemma evolves_log w0 m w : evolves p w0 w -> evolves p w0 (log m w).
Proof.
  intros Hw. apply (evolves_trans _ _ _ Hw).
  split; [intros kr Hin; exact Hin | intros Q HQ r Hr; exact Hr].
Qed.

Lemma evolves_delete w0 k w :
  evolves p w0 w -> evolves p w0 (setSessions (Map.delete k (sessions w)) w).
Proof.
  intros Hw. apply (evolves_trans _ _ _ Hw).
  split; [| intros Q HQ r Hr; exact Hr].
  intros kr Hin. now apply Map_delete_elem in Hin.
Qed.

End Evolution.

Ltac benign :=
  let Q := fresh "Q" in let HQ := fresh "HQ" in
  intros Q HQ; intros;
  first [ now apply (stable_append _ _ HQ) | now apply (stable_offline _ _ HQ)
        | now apply (stable_activity _ _ HQ) | now apply (stable_exit _ _ HQ)
        | now apply (stable_end _ _ HQ) | now apply (stable_kill _ _ HQ) ].

Ltac evolve :=
  repeat first [ assumption | apply evolves_log
               | apply evolves_delete
               | apply evolves_update; [benign |] ].

Section Lifecycle.

Variable p : Platform.

Lemma deliver_evolves w0 now e w :
  evolves p w0 w -> evolves p w0 (deliver p now e w).
Proof.
  intros Hw. destruct e as [r chunk | r why | r msg]; cbn [deliver].
  - evolve.
  - destruct (store w !! r) as [state |]; evolve.
  - destruct (store w !! r) as [state |]; evolve.
Qed.

Lemma deliverTimed_evolves w0 es w :
  evolves p w0 w -> evolves p w0 (deliverTimed p es w).
Proof.
  unfold deliverTimed. revert w. induction es as [|e es IH]; intros w Hw; cbn.
  - assumption.
  - apply IH. now apply deliver_evolves.
Qed.

Lemma killBegin_evolves w0 sessionId w :
  evolves p w0 w -> evolves p w0 (fst (killBegin sessionId w)).
Proof.
  intros Hw. unfold killBegin.
  destruct (lookupSession sessionId w) as [[r state] |]; cbn [fst]; evolve.
Qed.

Lemma killEscalate_evolves w0 r w :
  evolves p w0 w -> evolves p w0 (fst (killEscalate r w)).
Proof.
  intros Hw. unfold killEscalate, signal.
  destruct (negb (isKilled r w)); cbn [fst]; evolve.
Qed.

Lemma killForce_evolves w0 r w :
  evolves p w0 w -> evolves p w0 (killForce r w).
Proof.
  intros Hw. unfold killForce, signal. destruct (negb (isKilled r w)); evolve.
Qed.

Lemma killFinish_evolves w0 sessionId r w :
  evolves p w0 w -> evolves p w0 (killFinish sessionId r w).
Proof.
  intros Hw. unfold killFinish. apply evolves_log.
  apply (evolves_delete p w0 sessionId (update r (setStatus offline) w)). evolve.
Qed.


Lemma kill_unknown sessionId grace1 grace2 w :
  lookupSession sessionId w = None -> kill p sessionId grace1 grace2 w = w.
Proof. intros Hnone. unfold kill, killBegin. now rewrite Hnone. Qed.

(** A [kill] that finds its session ends in [killFinish]. *)
Lemma kill_known sessionId grace1 grace2 w r state :
  lookupSession sessionId w = Some (r, state) ->
  exists w1, evolves p w w1
             /\ kill p sessionId grace1 grace2 w = killFinish sessionId r w1.
Proof.
  intros Hfound. unfold kill.
  pose proof (killBegin_evolves w sessionId w (evolves_refl p w)) as Hbegin.
  unfold killBegin in *. rewrite Hfound in *. cbn [fst] in Hbegin.
  set (w1 := update r _ _) in *.
  pose proof (killEscalate_evolves w r _ (deliverTimed_evolves w grace1 _ Hbegin))
    as Hescalate.
  destruct (killEscalate r (deliverTimed p grace1 w1)) as [w2 [|]]; cbn [fst] in *.
  - eexists. split; [| reflexivity].
    apply killForce_evolves. now apply deliverTimed_evolves.
  - eexists. split; [| reflexivity]. assumption.
Qed.

Lemma kill_evolves w0 sessionId grace1 grace2 w :
  evolves p w0 w -> evolves p w0 (kill p sessionId grace1 grace2 w).
Proof.
  intros Hw. destruct (lookupSession sessionId w) as [[r state] |] eqn:Hfound.
  - destruct (kill_known sessionId grace1 grace2 w r state Hfound)
      as (w1 & Hw1 & ->).
    apply killFinish_evolves. now apply (evolves_trans _ _ _ _ Hw).
  - now rewrite kill_unknown.
Qed.

Lemma isAlive_evolves w0 sessionId w :
  evolves p w0 w -> evolves p w0 (fst (isAlive sessionId w)).
Proof.
  intros Hw. unfold isAlive.
  destruct (lookupSession sessionId w) as [[r state] |]; [| assumption].
  destruct (killed (process state) || _); cbn [fst]; evolve.
Qed.

End Lifecycle.

(** ** Stable properties *)

Lemma stable_True p : stable p (fun _ => True).
Proof. split; auto. Qed.

Lemma stable_id p k : stable p (fun st => id st = k).
Proof. split; intros; assumption. Qed.

Lemma stable_status_offline p : stable p (fun st => status st = offline).
Proof. split; intros; first [assumption | reflexivity]. Qed.

Lemma processExit_stdin why proc : stdin (processExit why proc) = stdin proc.
Proof. now destruct why. Qed.

Lemma processKill_stdin sig proc : stdin (processKill sig proc) = stdin proc.
Proof. unfold processKill. now destruct (hasExited proc). Qed.



Lemma wf_evolves p w w' : evolves p w w' -> wf w -> wf w'.
Proof.
  intros [Hentries Hobjects] Hwf. unfold wf in *. rewrite Forall_forall in *.
  intros kr Hin. apply (Hobjects _ (stable_id p (fst kr))). auto.
Qed.

Lemma evolves_keys p w w' k :
  evolves p w w' -> k ∈ Map.keys (sessions w') -> k ∈ Map.keys (sessions w).
Proof.
  intros [Hentries _] Hin. unfold Map.keys in *.
  apply list_elem_of_fmap in Hin as (kr & -> & Hkr).
  apply list_elem_of_fmap. eauto.
Qed.

(** ** [kill] *)

(** C7.  [kill] on an unknown id returns with the manager as it was: no
    log line, no object touched, the registry the same.  [kill] on a
    known id leaves no session of that id in [list()], whatever the
    children did during the grace periods and whichever signals were
    sent, and the session object's status is [offline]. *)
Theorem kill_spec p w sessionId grace1 grace2 :
  wf w ->
  (Map.get sessionId (sessions w) = None ->
     kill p sessionId grace1 grace2 w = w)
  /\ (forall r, Map.get sessionId (sessions w) = Some r ->
        let w' := kill p sessionId grace1 grace2 w in
        (forall state, state ∈ list_ w' -> id state <> sessionId)
        /\ Map.has sessionId (sessions w') = false
        /\ objAt r w' (fun state => status state = offline)).
Proof.
  intros Hwf. split.
  - intros Hnone. apply kill_unknown. unfold lookupSession. now rewrite Hnone.
  - intros r Hget w'.
    destruct (lookupSession_wf _ _ _ Hwf Hget) as (state & Hfound & _).
    destruct (kill_known p sessionId grace1 grace2 w r state Hfound)
      as (w1 & Hw1 & Hkill).
    assert (Hwf' : wf w').
    { apply (wf_evolves p w); [| assumption].
      unfold w'. apply kill_evolves, evolves_refl. }
    subst w'. rewrite Hkill in *. split; [| split].
    + intros st Hlisted. unfold list_ in Hlisted.
      apply list_elem_of_omap in Hlisted as (r' & Hr' & Hst).
      apply list_elem_of_fmap in Hr' as (kr & -> & Hkr).
      unfold wf in Hwf'. rewrite Forall_forall in Hwf'.
      destruct (Hwf' _ Hkr) as (st' & Hst' & Hid).
      rewrite Hst in Hst'. injection Hst' as <-. rewrite Hid.
      cbn [killFinish log setSessions sessions] in Hkr.
      now apply Map_delete_elem in Hkr.
    + unfold Map.has. cbn [killFinish log setSessions sessions update].
      now rewrite Map_get_delete.
    + unfold killFinish.
      apply (objAt_update_set r (setStatus offline) w1); [reflexivity |].
      apply Hw1; [apply stable_True |]. apply lookupSession_Some in Hfound.
      exists state. tauto.
Qed.

(** ** [shutdown] *)

Lemma killBegin_sessions sessionId w :
  sessions (fst (killBegin sessionId w)) = sessions w.
Proof.
  unfold killBegin. now destruct (lookupSession sessionId w) as [[r state] |].
Qed.

Lemma killBegin_known sessionId w r :
  wf w -> Map.get sessionId (sessions w) = Some r ->
  snd (killBegin sessionId w) = Some r.
Proof.
  intros Hwf Hget. destruct (lookupSession_wf _ _ _ Hwf Hget) as (st & Hfound & _).
  unfold killBegin. now rewrite Hfound.
Qed.

(** Nothing is a member of the empty list. *)
Ltac empty_list :=
  repeat intro;
  match goal with
  | H : _ ∈ [] |- _ => now apply elem_of_nil in H
  end.

Section Shutdown.

Variable p : Platform.

(** Every id of the registry has its [kill] started, on the object the
    registry holds for it. *)
Lemma beginAll_spec ids w :
  wf w -> (forall k, k ∈ ids -> k ∈ Map.keys (sessions w)) ->
  evolves p w (fst (beginAll ids w))
  /\ sessions (fst (beginAll ids w)) = sessions w
  /\ fst <$> snd (beginAll ids w) = ids
  /\ (forall k r, k ∈ ids -> Map.get k (sessions w) = Some r ->
        (k, r) ∈ snd (beginAll ids w))
  /\ (forall kr, kr ∈ snd (beginAll ids w) ->
        objAt (snd kr) (fst (beginAll ids w)) (fun _ => True)).
Proof.
  revert w. induction ids as [|k ids IH]; intros w Hwf Hkeys.
  - cbn. repeat split; auto using evolves_refl; empty_list.
  - cbn [beginAll].
    destruct (Map_get_key k (sessions w)) as [r Hget]; [apply Hkeys; left |].
    pose proof (killBegin_known k w r Hwf Hget) as Hsome.
    pose proof (killBegin_sessions k w) as Hsame.
    pose proof (killBegin_evolves p w k w (evolves_refl p w)) as Hev.
    destruct (killBegin k w) as [w1 o]. cbn [fst snd] in *. subst o.
    destruct (IH w1) as (Hev' & Hsess & Hids & Hall & Hobj).
    { now apply (wf_evolves p w). }
    { intros k' Hk'. rewrite Hsame. apply Hkeys. now right. }
    destruct (beginAll ids w1) as [w2 pending]. cbn [fst snd] in *.
    split; [now apply (evolves_trans p _ w1) |].
    split; [congruence |]. split; [cbn; congruence |]. split.
    + intros k' r' Hk' Hget'. apply elem_of_cons in Hk' as [-> | Hk'].
      * rewrite Hget in Hget'. injection Hget' as <-. left.
      * right. apply Hall; [assumption | congruence].
    + intros kr Hkr. apply elem_of_cons in Hkr as [-> | Hkr]; [| auto].
      cbn [snd]. apply Hev'; [apply stable_True |].
      apply Hev; [apply stable_True |].
      destruct (lookupSession_wf _ _ _ Hwf Hget) as (st & Hfound & _).
      apply lookupSession_Some in Hfound. exists st. tauto.
Qed.

Lemma killFinish_offline sessionId r w :
  objAt r w (fun _ => True) -> objAt r (killFinish sessionId r w) isOffline.
Proof.
  intros Hr. unfold killFinish.
  now apply (objAt_update_set r (setStatus offline) w).
Qed.

Lemma killFinish_keys sessionId r w k :
  k ∈ Map.keys (sessions (killFinish sessionId r w)) -> k <> sessionId.
Proof.
  cbn [killFinish log setSessions sessions update]. unfold Map.keys.
  intros Hin. apply list_elem_of_fmap in Hin as (kr & -> & Hkr).
  now apply Map_delete_elem in Hkr.
Qed.

Lemma escalateAll_spec pending w :
  (forall kr, kr ∈ pending -> objAt (snd kr) w (fun _ => True)) ->
  evolves p w (fst (escalateAll pending w))
  /\ (forall k, k ∈ Map.keys (sessions (fst (escalateAll pending w))) ->
        k ∈ fst <$> pending -> k ∈ fst <$> snd (escalateAll pending w))
  /\ (forall kr, kr ∈ pending ->
        kr ∈ snd (escalateAll pending w)
        \/ objAt (snd kr) (fst (escalateAll pending w)) isOffline)
  /\ (forall kr, kr ∈ snd (escalateAll pending w) -> kr ∈ pending).
Proof.
  revert w. induction pending as [|[k r] pending IH]; intros w Hobj.
  - cbn. repeat split; auto using evolves_refl; empty_list.
  - cbn [escalateAll fst snd].
    pose proof (killEscalate_evolves p w r w (evolves_refl p w)) as Hev.
    destruct (killEscalate r w) as [w1 [|]]; cbn [fst] in Hev.
    + destruct (IH w1) as (Hev' & Hkeys & Hdone & Hsub).
      { intros kr Hkr. apply Hev; [apply stable_True |]. apply Hobj. now right. }
      destruct (escalateAll pending w1) as [w2 waiting]. cbn [fst snd] in *.
      split; [now apply (evolves_trans p _ w1) |]. split; [| split].
      * intros k' Hk' Hin. cbn in Hin |- *.
        apply elem_of_cons in Hin as [-> | Hin]; [left | right; auto].
      * intros kr Hkr. apply elem_of_cons in Hkr as [-> | Hkr]; [left; left |].
        destruct (Hdone _ Hkr); [left; now right | now right].
      * intros kr Hkr. apply elem_of_cons in Hkr as [-> | Hkr]; [left | right; auto].
    + pose proof (killFinish_evolves p w k r w1 Hev) as Hfin.
      destruct (IH (killFinish k r w1)) as (Hev' & Hkeys & Hdone & Hsub).
      { intros kr Hkr. apply Hfin; [apply stable_True |]. apply Hobj. now right. }
      destruct (escalateAll pending (killFinish k r w1)) as [w2 waiting].
      cbn [fst snd] in *.
      split; [now apply (evolves_trans p _ (killFinish k r w1)) |]. split; [| split].
      * intros k' Hk' Hin. cbn in Hin.
        apply elem_of_cons in Hin as [-> | Hin]; [| auto].
        exfalso. apply (evolves_keys p _ _ _ Hev') in Hk'.
        now apply killFinish_keys in Hk'.
      * intros kr Hkr. apply elem_of_cons in Hkr as [-> | Hkr]; [| auto].
        right. cbn [snd]. apply Hev'; [apply stable_status_offline |].
        apply killFinish_offline. apply Hev; [apply stable_True |].
        apply (Hobj (k, r)). left.
      * intros kr Hkr. right. auto.
Qed.

Lemma forceAll_spec waiting w :
  (forall kr, kr ∈ waiting -> objAt (snd kr) w (fun _ => True)) ->
  evolves p w (forceAll waiting w)
  /\ (forall k, k ∈ Map.keys (sessions (forceAll waiting w)) ->
        k ∉ fst <$> waiting)
  /\ (forall kr, kr ∈ waiting -> objAt (snd kr) (forceAll waiting w) isOffline).
Proof.
  revert w. induction waiting as [|[k r] waiting IH]; intros w Hobj.
  - cbn. repeat split; auto using evolves_refl; empty_list.
  - cbn [forceAll fst snd].
    pose proof (killFinish_evolves p w k r _ (killForce_evolves p w r w (evolves_refl p w)))
      as Hfin.
    set (w1 := killFinish k r (killForce r w)) in *.
    destruct (IH w1) as (Hev' & Hkeys & Hdone).
    { intros kr Hkr. apply Hfin; [apply stable_True |]. apply Hobj. now right. }
    split; [now apply (evolves_trans p _ w1) |]. split.
    + intros k' Hk' Hin. cbn in Hin. apply elem_of_cons in Hin as [-> | Hin].
      * apply (evolves_keys p _ _ _ Hev') in Hk'. now apply killFinish_keys in Hk'.
      * now apply (Hkeys k').
    + intros kr Hkr. apply elem_of_cons in Hkr as [-> | Hkr]; [| auto].
      cbn [snd]. apply Hev'; [apply stable_status_offline |].
      apply killFinish_offline.
      apply (killForce_evolves p w r w (evolves_refl p w)); [apply stable_True |].
      apply (Hobj (k, r)). left.
Qed.

Lemma keys_nil {V} (m : Map.t V) : Map.keys m = [] -> m = [].
Proof. now destruct m. Qed.

Lemma no_keys {V} (m : Map.t V) : (forall k, k ∈ Map.keys m -> False) -> m = [].
Proof.
  intros Hnone. destruct m as [|[k v] m]; [reflexivity |].
  exfalso. apply (Hnone k). left.
Qed.

End Shutdown.

Lemma shutdown_empty p grace1 grace2 w :
  sessions w = [] ->
  shutdown p grace1 grace2 w = log LogAllTerminated (log LogShuttingDown w).
Proof.
  intros Hnone. unfold shutdown. cbn [log sessions]. rewrite Hnone. reflexivity.
Qed.

Lemma terminating_all w :
  wf w -> fst <$> terminating w = Map.keys (sessions w).
Proof.
  intros Hwf. unfold terminating.
  now destruct (beginAll_spec posix (Map.keys (sessions w)) (log LogShuttingDown w))
    as (_ & _ & Hids & _).
Qed.

Lemma shutdown_spec p grace1 grace2 w :
  wf w ->
  sessions (shutdown p grace1 grace2 w) = []
  /\ (forall k r, Map.get k (sessions w) = Some r ->
        objAt r (shutdown p grace1 grace2 w) isOffline).
Proof.
  intros Hwf. unfold shutdown.
  set (w0 := log LogShuttingDown w).
  destruct (beginAll_spec p (Map.keys (sessions w0)) w0)
    as (Hev0 & Hsess & Hids & Hall & Hobj); [exact Hwf | auto |].
  destruct (beginAll (Map.keys (sessions w0)) w0) as [wb pending].
  cbn [fst snd] in *.
  change (sessions w0) with (sessions w) in *.
  destruct pending as [|p0 pending'].
  { cbn in Hids. symmetry in Hids. apply keys_nil in Hids.
    split; [cbn [log sessions]; congruence |].
    intros k r Hget. rewrite Hids in Hget. discriminate. }
  set (pending := p0 :: pending') in *.
  pose proof (deliverTimed_evolves p wb grace1 wb (evolves_refl p wb)) as Hev1.
  destruct (escalateAll_spec p pending (deliverTimed p grace1 wb))
    as (Hev2 & Hkeys & Hdone & Hsub).
  { intros kr Hkr. apply Hev1; [apply stable_True | auto]. }
  destruct (escalateAll pending (deliverTimed p grace1 wb)) as [we waiting].
  cbn [fst snd] in *.
  assert (Hpending : forall k, k ∈ Map.keys (sessions we) -> k ∈ fst <$> waiting).
  { intros k Hk. apply Hkeys; [assumption |].
    apply (evolves_keys p _ _ _ Hev2), (evolves_keys p _ _ _ Hev1) in Hk.
    rewrite Hids. unfold Map.keys in *. congruence. }
  destruct waiting as [|q0 waiting'].
  { split.
    - cbn [log sessions]. apply no_keys. intros k Hk.
      apply Hpending in Hk. now apply elem_of_nil in Hk.
    - intros k r Hget.
      destruct (Hdone (k, r)) as [Hwait | Hoff]; [| now apply elem_of_nil in Hwait | exact Hoff].
      apply Hall; [| assumption]. unfold Map.keys.
      apply list_elem_of_fmap. exists (k, r). split; [reflexivity |].
      now apply Map_get_elem. }
  set (waiting := q0 :: waiting') in *.
  pose proof (deliverTimed_evolves p we grace2 we (evolves_refl p we)) as Hev3.
  destruct (forceAll_spec p waiting (deliverTimed p grace2 we))
    as (Hev4 & Hgone & Hforced).
  { intros kr Hkr. apply Hev3; [apply stable_True |].
    apply Hev2; [apply stable_True |]. apply Hev1; [apply stable_True |]. auto. }
  split.
  - cbn [log sessions]. apply no_keys. intros k Hk. apply (Hgone k Hk).
    apply Hpending.
    now apply (evolves_keys p _ _ _ Hev4), (evolves_keys p _ _ _ Hev3) in Hk.
  - intros k r Hget.
    assert (Hin : (k, r) ∈ pending).
    { apply Hall; [| assumption]. unfold Map.keys.
      apply list_elem_of_fmap. exists (k, r). split; [reflexivity |].
      now apply Map_get_elem. }
    destruct (Hdone _ Hin) as [Hwait | Hoff].
    + exact (Hforced _ Hwait).
    + apply Hev4; [apply stable_status_offline |].
      apply Hev3; [apply stable_status_offline |]. exact Hoff.
Qed.

(** ** The registry invariant *)

Lemma wf_empty : wf empty.
Proof. constructor. Qed.

Lemma wf_update r f w :
  (forall st, id (f st) = id st) -> wf w -> wf (update r f w).
Proof.
  intros Hid Hwf. unfold wf in *. cbn [update sessions].
  eapply Forall_impl; [exact Hwf |]. cbn beta.
  intros kr Hkr. apply objAt_update; [| exact Hkr].
  intros st <-. apply Hid.
Qed.

Lemma objAt_create r options now child w (Q : SessionState -> Prop) :
  objAt r w Q -> objAt r (fst (create options now child w)) Q.
Proof.
  intros (st & Hst & HQ). unfold create.
  destruct (Map.has _ _); [exists st; auto |].
  destruct (childPid child) as [n |]; [| exists st; auto].
  destruct (n =? 0); [exists st; auto |].
  exists st. split; [| assumption]. cbn [fst log store].
  rewrite lookup_app_l; [assumption |]. now apply lookup_lt_Some in Hst.
Qed.

Lemma wf_create options now child w :
  wf w -> wf (fst (create options now child w)).
Proof.
  intros Hwf. pose proof (fun r Q => objAt_create r options now child w Q) as Hkeep.
  unfold create in *. unfold Map.has in *.
  destruct (Map.get (opt_id options) (sessions w)) eqn:Hget; [exact Hwf |].
  destruct (childPid child) as [n |]; [| exact Hwf].
  destruct (n =? 0); [exact Hwf |].
  cbn [fst log] in *. unfold wf in *. cbn [sessions store] in *.
  rewrite (Map_set_fresh _ _ _ Hget). apply Forall_app. split.
  - eapply Forall_impl; [exact Hwf |]. intros kr Hkr. now apply Hkeep.
  - constructor; [| constructor]. cbn [fst snd].
    eexists. split; [apply list_lookup_middle; reflexivity | reflexivity].
Qed.

Section Steps.

Variable p : Platform.

Lemma beginAll_evolves w0 ids w :
  evolves p w0 w -> evolves p w0 (fst (beginAll ids w)).
Proof.
  revert w. induction ids as [|k ids IH]; intros w Hw; [assumption |].
  cbn [beginAll]. pose proof (killBegin_evolves p w0 k w Hw) as Hbegin.
  destruct (killBegin k w) as [w1 [r |]]; cbn [fst] in Hbegin.
  - specialize (IH w1 Hbegin). now destruct (beginAll ids w1).
  - now apply IH.
Qed.

Lemma escalateAll_evolves w0 pending w :
  evolves p w0 w -> evolves p w0 (fst (escalateAll pending w)).
Proof.
  revert w. induction pending as [|[k r] pending IH]; intros w Hw; [assumption |].
  cbn [escalateAll fst snd].
  pose proof (killEscalate_evolves p w0 r w Hw) as Hescalate.
  destruct (killEscalate r w) as [w1 [|]]; cbn [fst] in Hescalate.
  - specialize (IH w1 Hescalate). now destruct (escalateAll pending w1).
  - apply IH. now apply killFinish_evolves.
Qed.

Lemma forceAll_evolves w0 waiting w :
  evolves p w0 w -> evolves p w0 (forceAll waiting w).
Proof.
  revert w. induction waiting as [|[k r] waiting IH]; intros w Hw; [assumption |].
  cbn [forceAll fst snd]. apply IH.
  now apply killFinish_evolves, killForce_evolves.
Qed.

Lemma shutdown_evolves w0 grace1 grace2 w :
  evolves p w0 w -> evolves p w0 (shutdown p grace1 grace2 w).
Proof.
  intros Hw. unfold shutdown.
  pose proof (beginAll_evolves w0 (Map.keys (sessions (log LogShuttingDown w))) _
                (evolves_log p w0 LogShuttingDown w Hw)) as Hbegin.
  destruct (beginAll _ _) as [wb pending]. cbn [fst] in Hbegin.
  apply evolves_log. destruct pending as [|p0 pending]; [assumption |].
  pose proof (escalateAll_evolves w0 (p0 :: pending) _
                (deliverTimed_evolves p w0 grace1 wb Hbegin)) as Hescalate.
  destruct (escalateAll _ _) as [we waiting]. cbn [fst] in Hescalate.
  destruct waiting as [|q0 waiting]; [assumption |].
  now apply forceAll_evolves, deliverTimed_evolves.
Qed.







Lemma sendText_offline sessionId text now w r state :
  lookupSession sessionId w = Some (r, state) -> status state = offline ->
  sendText sessionId text now w = (w, Throw (OfflineError sessionId)).
Proof.
  intros Hfound Hoff. unfold sendText, notRunning. now rewrite Hfound, Hoff.
Qed.

Lemma sendControl_offline sessionId char now w r state :
  lookupSession sessionId w = Some (r, state) -> status state = offline ->
  sendControl sessionId char now w = (w, Throw (OfflineError sessionId)).
Proof.
  intros Hfound Hoff. unfold sendControl, notRunning. now rewrite Hfound, Hoff.
Qed.


(** Every call and every child event keeps the registry well formed. *)
Lemma wf_step w c : wf w -> wf (step p w c).
Proof.
  intros Hwf. destruct c; cbn [step]; try assumption.
  - now apply wf_create.
  - unfold sendText. destruct (lookupSession _ _) as [[r st] |]; [| assumption].
    destruct (notRunning st); [assumption |]. cbn [fst].
    now repeat (apply wf_update; [reflexivity |]).
  - unfold sendControl. destruct (lookupSession _ _) as [[r st] |]; [| assumption].
    destruct (notRunning st); [assumption |].
    destruct (negb (truthy (controlMap _))); [assumption |].
    destruct (controlMap _); cbn [fst]; try assumption.
    now repeat (apply wf_update; [reflexivity |]).
  - apply (wf_evolves p w); [| assumption]. apply kill_evolves, evolves_refl.
  - apply (wf_evolves p w); [| assumption]. apply isAlive_evolves, evolves_refl.
  - unfold updateStatus. destruct (lookupSession _ _) as [[r st] |]; [| assumption].
    now repeat (apply wf_update; [reflexivity |]).
  - apply (wf_evolves p w); [| assumption]. apply shutdown_evolves, evolves_refl.
  - apply (wf_evolves p w); [| assumption]. apply deliver_evolves, evolves_refl.
Qed.

Lemma wf_steps w cs : wf w -> wf (steps p w cs).
Proof.
  revert w. induction cs as [|c cs IH]; intros w Hwf; [assumption |].
  cbn [steps fold_left]. apply IH. now apply wf_step.
Qed.

End Steps.

(** *** What the [kill]s of a [shutdown] do *)

Lemma killingLine_log m w k : killingLine (log m w) k = killingLine w k.
Proof. reflexivity. Qed.

Lemma killingLine_update r f w k :
  (forall st, pid (f st) = pid st) ->
  killingLine (update r f w) k = killingLine w k.
Proof.
  intros Hpid. unfold killingLine, lookupSession. cbn [update sessions store].
  destruct (Map.get k (sessions w)) as [r' |]; [| reflexivity].
  destruct (decide (r = r')) as [-> | Hne].
  - rewrite list_lookup_alter_eq. destruct (store w !! r') as [st |]; [| reflexivity].
    cbn. now rewrite Hpid.
  - now rewrite list_lookup_alter_ne.
Qed.

(** [map] logs the first line of every [kill], in the order of the ids. *)
Lemma beginAll_logged ids w :
  logged (fst (beginAll ids w)) = logged w ++ flat_map (killingLine w) ids.
Proof.
  revert w. induction ids as [|k ids IH]; intros w; cbn [beginAll flat_map].
  - cbn. now rewrite app_nil_r.
  - assert (Hline : logged (fst (killBegin k w)) = logged w ++ killingLine w k
                    /\ forall k', killingLine (fst (killBegin k w)) k' = killingLine w k').
    { unfold killBegin, killingLine at 1.
      destruct (lookupSession k w) as [[r st] |]; cbn [fst].
      - split; [reflexivity |]. intros k'.
        now rewrite killingLine_update, killingLine_log.
      - split; [now rewrite app_nil_r | reflexivity]. }
    destruct Hline as [Hlog Hsame]. specialize (IH (fst (killBegin k w))).
    destruct (killBegin k w) as [w1 [r |]]; cbn [fst] in *.
    + destruct (beginAll ids w1) as [w2 pending]. cbn [fst] in *.
      rewrite IH, Hlog, <- app_assoc. f_equal. f_equal.
      apply flat_map_ext. intros k'. apply Hsame.
    + rewrite IH, Hlog, <- app_assoc. f_equal. f_equal.
      apply flat_map_ext. intros k'. apply Hsame.
Qed.

Lemma stable_stdinEnded p : stable p stdinEnded.
Proof.
  unfold stdinEnded. split; intros; try assumption; cbn [setProcess process].
  - now rewrite processExit_stdin.
  - unfold streamEnd. destruct (stdin (process st)) eqn:Hs; cbn; [reflexivity |].
    now rewrite Hs.
  - now rewrite processKill_stdin.
Qed.

Lemma stable_signalled p : stable p signalled.
Proof.
  unfold signalled. split; intros; try assumption; cbn [setProcess process].
  - right. destruct why; unfold hasExited; cbn; [reflexivity |].
    now destruct (exitCode (process st)).
  - unfold streamEnd, hasExited in *. now destruct (stdin (process st)).
  - unfold processKill. destruct (hasExited (process st)) eqn:Hdead; [now right | now left].
Qed.

Lemma stable_and p (Q1 Q2 : SessionState -> Prop) :
  stable p Q1 -> stable p Q2 -> stable p (fun st => Q1 st /\ Q2 st).
Proof.
  intros [Ha1 Ho1 Hl1 Hx1 He1 Hk1] [Ha2 Ho2 Hl2 Hx2 He2 Hk2].
  split; intros; destruct H; split; auto.
Qed.

Section ShutdownKills.

Variable p : Platform.

(** The [kill] of an id that the registry holds ends the child's stdin
    before its first timer. *)
Lemma beginAll_ended ids w k r :
  k ∈ ids -> Map.get k (sessions w) = Some r -> objAt r w (fun _ => True) ->
  objAt r (fst (beginAll ids w)) stdinEnded.
Proof.
  revert w. induction ids as [|k0 ids IH]; intros w Hin Hget Hr.
  - now apply elem_of_nil in Hin.
  - cbn [beginAll].
    pose proof (killBegin_sessions k0 w) as Hsame.
    pose proof (killBegin_evolves p w k0 w (evolves_refl p w)) as Hev.
    destruct (decide (k0 = k)) as [-> | Hne].
    + assert (Hended : objAt r (fst (killBegin k w)) stdinEnded).
      { destruct Hr as (st & Hst & _). unfold killBegin, lookupSession.
        rewrite Hget, Hst. cbn [fst].
        apply (objAt_update_set r _ (log (LogKilling k (pid st)) w)).
        - intros st'. unfold stdinEnded, streamEnd. cbn [setProcess process].
          destruct (stdin (process st')) eqn:Hs; cbn; [reflexivity | now rewrite Hs].
        - exists st. split; [exact Hst | exact I]. }
      destruct (killBegin k w) as [w1 [r' |]]; cbn [fst] in *.
      * pose proof (beginAll_evolves p w1 ids w1 (evolves_refl p w1)) as Hrest.
        destruct (beginAll ids w1) as [w2 pending]. cbn [fst] in *.
        now apply Hrest; [apply stable_stdinEnded |].
      * pose proof (beginAll_evolves p w1 ids w1 (evolves_refl p w1)) as Hrest.
        now apply Hrest; [apply stable_stdinEnded |].
    + apply elem_of_cons in Hin as [-> | Hin]; [congruence |].
      specialize (IH (fst (killBegin k0 w)) Hin).
      destruct (killBegin k0 w) as [w1 [r' |]]; cbn [fst] in *.
      * destruct (beginAll ids w1) as [w2 pending]. cbn [fst] in *.
        apply IH; [congruence |]. now apply Hev; [apply stable_True |].
      * apply IH; [congruence |]. now apply Hev; [apply stable_True |].
Qed.

(** After the first timer the child has been sent [SIGTERM], unless a
    signal had been delivered before or the child had ended. *)
Lemma killEscalate_signalled r w :
  objAt r w (fun _ => True) -> objAt r (fst (killEscalate r w)) signalled.
Proof.
  intros (st & Hst & _). unfold killEscalate, isKilled, signal. rewrite Hst.
  destruct (killed (process st)) eqn:Hkilled; cbn [negb fst].
  - exists st. split; [exact Hst | now left].
  - apply (objAt_update_set r _ w); [| exists st; split; [exact Hst | exact I]].
    intros st'. unfold signalled, processKill. cbn [setProcess process].
    destruct (hasExited (process st')) eqn:Hdead; [now right | now left].
Qed.

Lemma escalateAll_signalled pending w kr :
  (forall kr', kr' ∈ pending -> objAt (snd kr') w (fun _ => True)) ->
  kr ∈ pending ->
  objAt (snd kr) (fst (escalateAll pending w)) signalled.
Proof.
  revert w. induction pending as [|[k r] pending IH]; intros w Hobj Hin.
  - now apply elem_of_nil in Hin.
  - cbn [escalateAll fst snd].
    pose proof (killEscalate_evolves p w r w (evolves_refl p w)) as Hev.
    pose proof (killEscalate_signalled r w (Hobj (k, r) ltac:(left))) as Hsig.
    destruct (killEscalate r w) as [w1 again]. cbn [fst] in *.
    set (w2 := if again then w1 else killFinish k r w1).
    assert (Hev2 : evolves p w w2).
    { unfold w2. destruct again; [exact Hev | now apply killFinish_evolves]. }
    assert (Hobj2 : forall kr', kr' ∈ pending -> objAt (snd kr') w2 (fun _ => True)).
    { intros kr' Hkr'. apply Hev2; [apply stable_True |]. apply Hobj. now right. }
    assert (Hgoal : objAt (snd kr) (fst (escalateAll pending w2)) signalled).
    { apply elem_of_cons in Hin as [-> | Hin]; [| now apply IH].
      cbn [snd].
      destruct (escalateAll_spec p pending w2 Hobj2) as (Hrest & _).
      apply Hrest; [apply stable_signalled |].
      unfold w2. destruct again; [exact Hsig |].
      now apply (killFinish_evolves p w1 k r w1 (evolves_refl p w1));
        [apply stable_signalled |]. }
    unfold w2 in Hgoal. destruct again; [| exact Hgoal].
    now destruct (escalateAll pending w1).
Qed.

(** The log lines of the listeners and of the [kill]s after their first
    timer: none is the first line of a [kill]. *)
Lemma deliverTimed_logged es w :
  exists rest, logged (deliverTimed p es w) = logged w ++ rest
               /\ Forall (fun m => ~ isKilling m) rest.
Proof.
  unfold deliverTimed. revert w. induction es as [|e es IH]; intros w; cbn [fold_left].
  - exists []. split; [now rewrite app_nil_r | constructor].
  - destruct (IH (deliver p (fst e) (snd e) w)) as (rest & -> & Hrest).
    destruct (snd e) as [r chunk | r why | r msg]; cbn [deliver].
    + exists rest. split; [reflexivity | exact Hrest].
    + destruct (store w !! r) as [st |]; [| exists rest; split; [reflexivity | exact Hrest]].
      eexists (_ :: rest). cbn [update log logged]. rewrite <- app_assoc.
      split; [reflexivity |]. constructor; [intros [] | exact Hrest].
    + destruct (store w !! r) as [st |]; [| exists rest; split; [reflexivity | exact Hrest]].
      eexists (_ :: rest). cbn [update log logged]. rewrite <- app_assoc.
      split; [reflexivity |]. constructor; [intros [] | exact Hrest].
Qed.

Lemma killEscalate_logged r w : logged (fst (killEscalate r w)) = logged w.
Proof. unfold killEscalate. now destruct (negb (isKilled r w)). Qed.

Lemma killForce_logged r w : logged (killForce r w) = logged w.
Proof. unfold killForce. now destruct (negb (isKilled r w)). Qed.

Lemma killFinish_logged k r w : logged (killFinish k r w) = logged w ++ [LogKilled k].
Proof. reflexivity. Qed.

Lemma escalateAll_logged pending w :
  exists rest,
    logged (fst (escalateAll pending w)) = logged w ++ rest
    /\ Forall (fun m => ~ isKilling m) rest
    /\ (forall kr, kr ∈ pending ->
          kr ∈ snd (escalateAll pending w) \/ LogKilled (fst kr) ∈ rest).
Proof.
  revert w. induction pending as [|[k r] pending IH]; intros w.
  - exists []. cbn. split; [now rewrite app_nil_r |]. split; [constructor | empty_list].
  - cbn [escalateAll fst snd]. pose proof (killEscalate_logged r w) as Hlog.
    destruct (killEscalate r w) as [w1 [|]]; cbn [fst] in Hlog.
    + destruct (IH w1) as (rest & Hrest & Hlate & Hdone).
      destruct (escalateAll pending w1) as [w2 waiting]. cbn [fst snd] in *.
      exists rest. split; [congruence |]. split; [exact Hlate |].
      intros kr Hkr. apply elem_of_cons in Hkr as [-> | Hkr]; [left; left |].
      destruct (Hdone _ Hkr); [left; now right | now right].
    + destruct (IH (killFinish k r w1)) as (rest & Hrest & Hlate & Hdone).
      destruct (escalateAll pending (killFinish k r w1)) as [w2 waiting].
      cbn [fst snd] in *. exists (LogKilled k :: rest).
      split; [rewrite Hrest, killFinish_logged, Hlog, <- app_assoc; reflexivity |].
      split; [constructor; [intros [] | exact Hlate] |].
      intros kr Hkr. apply elem_of_cons in Hkr as [-> | Hkr]; [right; left |].
      destruct (Hdone _ Hkr); [now left | right; now right].
Qed.

Lemma forceAll_logged waiting w :
  exists rest,
    logged (forceAll waiting w) = logged w ++ rest
    /\ Forall (fun m => ~ isKilling m) rest
    /\ (forall kr, kr ∈ waiting -> LogKilled (fst kr) ∈ rest).
Proof.
  revert w. induction waiting as [|[k r] waiting IH]; intros w.
  - exists []. cbn. split; [now rewrite app_nil_r |]. split; [constructor | empty_list].
  - cbn [forceAll fst snd].
    destruct (IH (killFinish k r (killForce r w))) as (rest & Hrest & Hlate & Hdone).
    exists (LogKilled k :: rest).
    split; [rewrite Hrest, killFinish_logged, killForce_logged, <- app_assoc; reflexivity |].
    split; [constructor; [intros [] | exact Hlate] |].
    intros kr Hkr. apply elem_of_cons in Hkr as [-> | Hkr]; [left | right; auto].
Qed.

(** What [shutdown] logs: its first line, the first line of the [kill]
    of every registered id in the order of the registry, the lines of
    the listeners and the last line of every [kill], and its own last
    line. *)
Lemma shutdown_logged grace1 grace2 w :
  wf w ->
  exists rest,
    logged (shutdown p grace1 grace2 w)
    = logged w ++ LogShuttingDown
        :: flat_map (killingLine w) (Map.keys (sessions w))
        ++ rest ++ [LogAllTerminated]
    /\ Forall (fun m => ~ isKilling m) rest
    /\ (forall k, k ∈ Map.keys (sessions w) -> LogKilled k ∈ rest).
Proof.
  intros Hwf. unfold shutdown.
  set (w0 := log LogShuttingDown w).
  destruct (beginAll_spec p (Map.keys (sessions w0)) w0)
    as (_ & _ & Hids & _ & _); [exact Hwf | auto |].
  pose proof (beginAll_logged (Map.keys (sessions w0)) w0) as Hbegun.
  destruct (beginAll (Map.keys (sessions w0)) w0) as [wb pending].
  cbn [fst snd] in *. change (sessions w0) with (sessions w) in *.
  assert (Hhead : logged wb = logged w ++ LogShuttingDown
                    :: flat_map (killingLine w) (Map.keys (sessions w))).
  { rewrite Hbegun. unfold w0. cbn [log logged]. rewrite <- app_assoc. reflexivity. }
  assert (Hpending : forall k, k ∈ Map.keys (sessions w) ->
                               exists kr, kr ∈ pending /\ fst kr = k).
  { intros k Hk. rewrite <- Hids in Hk.
    apply list_elem_of_fmap in Hk as (kr & -> & Hkr). eauto. }
  assert (Hshape : forall l rest : list LogMessage,
            (logged w ++ LogShuttingDown :: l) ++ rest ++ [LogAllTerminated]
            = logged w ++ LogShuttingDown :: l ++ rest ++ [LogAllTerminated]).
  { intros l rest. now rewrite <- app_assoc. }
  destruct pending as [|p0 pending'].
  { exists []. cbn [log logged]. rewrite Hhead, <- Hshape.
    split; [reflexivity |]. split; [constructor |].
    intros k Hk. destruct (Hpending k Hk) as (kr & Hkr & _).
    now apply elem_of_nil in Hkr. }
  set (pending := p0 :: pending') in *.
  destruct (deliverTimed_logged grace1 wb) as (rest1 & Hlog1 & Hlate1).
  destruct (escalateAll_logged pending (deliverTimed p grace1 wb))
    as (rest2 & Hlog2 & Hlate2 & Hdone2).
  destruct (escalateAll pending (deliverTimed p grace1 wb)) as [we waiting].
  cbn [fst snd] in *.
  destruct waiting as [|q0 waiting'].
  { exists (rest1 ++ rest2). cbn [log logged].
    rewrite Hlog2, Hlog1, Hhead, <- Hshape, <- !app_assoc.
    split; [reflexivity |]. split; [now apply Forall_app |].
    intros k Hk. destruct (Hpending k Hk) as (kr & Hkr & <-).
    destruct (Hdone2 _ Hkr) as [Hwait | Hkilled]; [now apply elem_of_nil in Hwait |].
    apply elem_of_app. now right. }
  set (waiting := q0 :: waiting') in *.
  destruct (deliverTimed_logged grace2 we) as (rest3 & Hlog3 & Hlate3).
  destruct (forceAll_logged waiting (deliverTimed p grace2 we))
    as (rest4 & Hlog4 & Hlate4 & Hdone4).
  exists (rest1 ++ rest2 ++ rest3 ++ rest4). cbn [log logged].
  rewrite Hlog4, Hlog3, Hlog2, Hlog1, Hhead, <- Hshape, <- !app_assoc.
  split; [reflexivity |]. split; [now repeat (apply Forall_app; split) |].
  intros k Hk. destruct (Hpending k Hk) as (kr & Hkr & <-).
  rewrite !elem_of_app. destruct (Hdone2 _ Hkr) as [Hwait | Hkilled]; [| tauto].
  right. right. right. now apply Hdone4.
Qed.

(** What [shutdown] does to the child of every registered id: stdin is
    ended and a signal was sent, unless the child had ended. *)
Lemma shutdown_handles grace1 grace2 w k r :
  wf w -> Map.get k (sessions w) = Some r ->
  objAt r (shutdown p grace1 grace2 w) (fun st => stdinEnded st /\ signalled st).
Proof.
  intros Hwf Hget. unfold shutdown.
  set (w0 := log LogShuttingDown w).
  assert (Hkey : k ∈ Map.keys (sessions w)).
  { unfold Map.keys. apply list_elem_of_fmap. exists (k, r).
    split; [reflexivity | now apply Map_get_elem]. }
  destruct (lookupSession_wf _ _ _ Hwf Hget) as (st & Hfound & _).
  apply lookupSession_Some in Hfound as [_ Hst].
  pose proof (beginAll_ended (Map.keys (sessions w0)) w0 k r Hkey Hget
                (ex_intro _ st (conj Hst I))) as Hended.
  destruct (beginAll_spec p (Map.keys (sessions w0)) w0)
    as (_ & _ & _ & Hall & Hobj); [exact Hwf | auto |].
  specialize (Hall k r Hkey Hget).
  destruct (beginAll (Map.keys (sessions w0)) w0) as [wb pending].
  cbn [fst snd] in *.
  destruct pending as [|p0 pending']; [now apply elem_of_nil in Hall |].
  set (pending := p0 :: pending') in *.
  pose proof (deliverTimed_evolves p wb grace1 wb (evolves_refl p wb)) as Hev1.
  assert (Hobj1 : forall kr, kr ∈ pending ->
                    objAt (snd kr) (deliverTimed p grace1 wb) (fun _ => True)).
  { intros kr Hkr. apply Hev1; [apply stable_True | auto]. }
  pose proof (escalateAll_signalled pending _ (k, r) Hobj1 Hall) as Hsig.
  destruct (escalateAll_spec p pending _ Hobj1) as (Hev2 & _).
  destruct (escalateAll pending (deliverTimed p grace1 wb)) as [we waiting].
  cbn [fst snd] in *.
  assert (Hboth : objAt r we (fun st => stdinEnded st /\ signalled st)).
  { destruct Hsig as (st' & Hst' & Hsig). exists st'. split; [exact Hst' |].
    split; [| exact Hsig].
    destruct (proj2 Hev2 _ (stable_stdinEnded p) r
                (proj2 Hev1 _ (stable_stdinEnded p) r Hended))
      as (st'' & Hst'' & Hend). congruence. }
  destruct waiting as [|q0 waiting']; [exact Hboth |].
  apply (forceAll_evolves p we); [| | exact Hboth].
  - apply deliverTimed_evolves, evolves_refl.
  - apply stable_and; [apply stable_stdinEnded | apply stable_signalled].
Qed.

(** With one session registered, [shutdown] is the [kill] of its id
    between the two log lines. *)
Lemma shutdown_single grace1 grace2 w k r :
  wf w -> sessions w = [(k, r)] ->
  shutdown p grace1 grace2 w
  = log LogAllTerminated (kill p k grace1 grace2 (log LogShuttingDown w)).
Proof.
  intros Hwf Hone.
  assert (Hget : Map.get k (sessions w) = Some r).
  { rewrite Hone. cbn. now rewrite (proj2 (strictEq_true k k) eq_refl). }
  destruct (lookupSession_wf _ _ _ Hwf Hget) as (st & Hfound & _).
  unfold shutdown, kill. cbn [log sessions]. rewrite Hone.
  cbn [Map.keys fmap list_fmap fst beginAll]. unfold killBegin.
  assert (Hfound' : lookupSession k (log LogShuttingDown w) = Some (r, st)) by exact Hfound.
  rewrite Hfound'. cbn [escalateAll fst snd].
  destruct (killEscalate r _) as [w' [|]]; reflexivity.
Qed.

End ShutdownKills.

(** C9.  The first [shutdown] starts the [kill] of every registered id
    and of no other: it logs its own first line, then the first line of
    a [kill] for each id in the order of the registry, later the last
    line of each of these [kill]s, and its own last line; the stdin of
    every registered child is ended, and every such child has been sent
    a signal unless it had ended.  It leaves the registry empty and
    every session object offline; with one session registered it is
    the [kill] of that session's id between the two log lines.  The
    second [shutdown] starts no [kill]: it writes its two log lines and
    changes nothing else. *)
Theorem shutdown_twice p w grace1 grace2 grace1' grace2' :
  wf w ->
  let w1 := shutdown p grace1 grace2 w in
  fst <$> terminating w = Map.keys (sessions w)
  /\ sessions w1 = []
  /\ (forall k r, Map.get k (sessions w) = Some r -> objAt r w1 isOffline)
  /\ terminating w1 = []
  /\ shutdown p grace1' grace2' w1
     = log LogAllTerminated (log LogShuttingDown w1)
  /\ (exists rest,
        logged w1
        = logged w ++ LogShuttingDown
            :: flat_map (killingLine w) (Map.keys (sessions w))
            ++ rest ++ [LogAllTerminated]
        /\ Forall (fun m => ~ isKilling m) rest
        /\ (forall k, k ∈ Map.keys (sessions w) -> LogKilled k ∈ rest))
  /\ (forall k r, Map.get k (sessions w) = Some r ->
        exists state,
          store w !! r = Some state
          /\ killingLine w k = [LogKilling k (pid state)]
          /\ objAt r w1 (fun st => stdinEnded st /\ signalled st))
  /\ (forall k r, sessions w = [(k, r)] ->
        w1 = log LogAllTerminated (kill p k grace1 grace2 (log LogShuttingDown w))).
Proof.
  intros Hwf w1.
  destruct (shutdown_spec p grace1 grace2 w Hwf) as [Hnone Hoffline].
  fold w1 in Hnone, Hoffline.
  split; [now apply terminating_all |]. split; [assumption |].
  split; [assumption |]. split; [unfold terminating; now rewrite Hnone |].
  split; [now apply shutdown_empty |].
  split; [now apply shutdown_logged |]. split.
  - intros k r Hget. destruct (lookupSession_wf _ _ _ Hwf Hget) as (st & Hfound & _).
    exists st. split; [now apply lookupSession_Some in Hfound |].
    split; [unfold killingLine; now rewrite Hfound |].
    now apply (shutdown_handles p grace1 grace2 w k r).
  - intros k r Hone. now apply (shutdown_single p grace1 grace2 w k r).
Qed.

(** ** [create] *)

(** C5.  [create] with an id the registry holds throws
    [DuplicateSessionError] and leaves the manager as it was: nothing
    spawned, nothing logged, the registry and every session object
    unchanged. *)
Theorem create_duplicate options now child w :
  Map.has (opt_id options) (sessions w) = true ->
  create options now child w = (w, Throw (DuplicateSessionError (opt_id options))).
Proof. intros Hhas. unfold create. now rewrite Hhas. Qed.

Lemma create_duplicate_witness :
  Map.has (utf16 "s") (sessions started) = true
  /\ create sessionOptions 3000 (mkSpawnResult (Some 5555) true) started
     = (started, Throw (DuplicateSessionError (utf16 "s"))).
Proof.
  split; [reflexivity |].
  apply (create_duplicate sessionOptions 3000 (mkSpawnResult (Some 5555) true) started).
  reflexivity.
Defined.

(** ** The detectors on an unknown id *)

(** C10.  For an id the registry does not hold, both detectors throw
    [NotFoundError]: they read through [getOutput]. *)
Theorem detect_unknown_session sessionId w :
  Map.get sessionId (sessions w) = None ->
  detectPermissionPrompt sessionId w = Throw (NotFoundError sessionId)
  /\ detectBypassWarning sessionId w = Throw (NotFoundError sessionId).
Proof.
  intros Hnone.
  unfold detectPermissionPrompt, detectBypassWarning, getOutput, lookupSession.
  now rewrite Hnone.
Qed.

Lemma detect_unknown_session_witness :
  detectPermissionPrompt (utf16 "t") started = Throw (NotFoundError (utf16 "t"))
  /\ detectBypassWarning (utf16 "t") started = Throw (NotFoundError (utf16 "t")).
Proof.
  apply (detect_unknown_session (utf16 "t") started). reflexivity.
Defined.

(** ** After the child has ended *)

Lemma lookupSession_update sessionId w r state f :
  lookupSession sessionId w = Some (r, state) ->
  lookupSession sessionId (update r f w) = Some (r, f state).
Proof.
  intros Hfound. apply lookupSession_Some in Hfound as [Hget Hst].
  unfold lookupSession. cbn [update sessions store].
  now rewrite Hget, list_lookup_alter_eq, Hst.
Qed.

Lemma lookupSession_exit p now sessionId w r state why :
  lookupSession sessionId w = Some (r, state) ->
  lookupSession sessionId (deliver p now (Exit r why) w)
  = Some (r, setStatus offline (setProcess (processExit why (process state)) state)).
Proof.
  intros Hfound. cbn [deliver].
  rewrite (proj2 (lookupSession_Some _ _ _ _ Hfound)).
  apply (lookupSession_update _ _ _ _ (setStatus offline)).
  apply (lookupSession_update sessionId w r state
           (fun st => setProcess (processExit why (process st)) st)).
  exact Hfound.
Qed.

(** A child that ends with an exit code: the session is offline, not
    alive, and takes no input. *)
Lemma isAlive_after_exit_code p now sessionId w r state code :
  lookupSession sessionId w = Some (r, state) ->
  let w' := deliver p now (Exit r (Exited code)) w in
  snd (isAlive sessionId w') = false
  /\ objAt r w' isOffline
  /\ (forall text t, snd (sendText sessionId text t w') = Throw (OfflineError sessionId)).
Proof.
  intros Hfound w'.
  pose proof (lookupSession_exit p now _ _ _ _ (Exited code) Hfound) as Hafter.
  fold w' in Hafter. split; [| split].
  - unfold isAlive. rewrite Hafter. cbn. now rewrite orb_true_r.
  - apply lookupSession_Some in Hafter as [_ Hst]. eexists. split; [exact Hst | reflexivity].
  - intros. now rewrite (sendText_offline _ _ _ _ _ _ Hafter).
Qed.

(** A child ended by a signal that [kill()] did not send: [exitCode]
    stays null and [killed] false, and [isAlive] answers [true]. *)
Lemma isAlive_after_signal p now sessionId w r state sig :
  lookupSession sessionId w = Some (r, state) ->
  hasExited (process state) = false ->
  killed (process state) = false ->
  let w' := deliver p now (Exit r (Signaled sig)) w in
  isAlive sessionId w' = (w', true) /\ objAt r w' isOffline.
Proof.
  intros Hfound Hrunning Hkilled w'.
  pose proof (lookupSession_exit p now _ _ _ _ (Signaled sig) Hfound) as Hafter.
  fold w' in Hafter. split.
  - unfold isAlive. rewrite Hafter. cbn. rewrite Hkilled.
    unfold hasExited in Hrunning. now destruct (exitCode (process state)).
  - apply lookupSession_Some in Hafter as [_ Hst]. eexists. split; [exact Hst | reflexivity].
Qed.

(** C2, at a child killed from outside.  The exit listener has set the
    status to [offline] and [sendText] and [sendControl] throw
    [OfflineError], but [isAlive] returns [true]. *)
Theorem isAlive_after_signal_exit p sig :
  let w := exitedWith p (Signaled sig) in
  isAlive (utf16 "s") w = (w, true)
  /\ objAt 0%nat w isOffline
  /\ (forall text now,
        sendText (utf16 "s") text now w = (w, Throw (OfflineError (utf16 "s"))))
  /\ (forall char now,
        sendControl (utf16 "s") char now w = (w, Throw (OfflineError (utf16 "s")))).
Proof.
  intros w.
  assert (Hfound : lookupSession (utf16 "s") w
                   = Some (0%nat, setStatus offline
                                    (setProcess (processExit (Signaled sig) (process newSession))
                                       newSession))).
  { apply (lookupSession_exit p 2000 (utf16 "s") started 0%nat newSession); reflexivity. }
  split; [| split; [| split]].
  - now apply (isAlive_after_signal p 2000 (utf16 "s") started 0%nat newSession sig).
  - now apply (isAlive_after_signal p 2000 (utf16 "s") started 0%nat newSession sig).
  - intros. now apply (sendText_offline _ _ _ _ _ _ Hfound).
  - intros. now apply (sendControl_offline _ _ _ _ _ _ Hfound).
Qed.

(** ** [sendControl] *)

Lemma sendControl_own_key sessionId char byte now w r state :
  lookupSession sessionId w = Some (r, state) ->
  notRunning state = false ->
  (char, byte) ∈ [(utf16 "C-c", 0x03%N); (utf16 "C-d", 0x04%N); (utf16 "C-z", 0x1a%N)] ->
  sendControl sessionId char now w
  = (update r (setLastActivity now)
       (update r (fun st => setProcess (streamWrite [byte] (process st)) st)
          (log (LogSendingControl char sessionId) w)),
     Return tt).
Proof.
  intros Hfound Hrunning Hkey. unfold sendControl. rewrite Hfound, Hrunning.
  repeat (apply elem_of_cons in Hkey as [Hkey | Hkey];
          [injection Hkey as -> ->; reflexivity |]).
  now apply elem_of_nil in Hkey.
Qed.

Lemma sendControl_no_property sessionId char now w r state :
  lookupSession sessionId w = Some (r, state) ->
  notRunning state = false ->
  controlMap char = JSUndefined ->
  sendControl sessionId char now w = (w, Throw (UnknownControlError char)).
Proof.
  intros Hfound Hrunning Hkey. unfold sendControl. now rewrite Hfound, Hrunning, Hkey.
Qed.

Lemma sendControl_inherited sessionId char now w r state :
  lookupSession sessionId w = Some (r, state) ->
  notRunning state = false ->
  char ∈ objectPrototype ->
  sendControl sessionId char now w
  = (log (LogSendingControl char sessionId) w, Throw InvalidArgTypeError).
Proof.
  intros Hfound Hrunning Hkey. unfold sendControl. rewrite Hfound, Hrunning.
  unfold objectPrototype in Hkey. cbn [map] in Hkey.
  repeat (apply elem_of_cons in Hkey as [-> | Hkey]; [reflexivity |]).
  now apply elem_of_nil in Hkey.
Qed.

(** C8, at a symbol that names a property of [Object.prototype].  The
    three control symbols write their byte, but ["toString"] is neither
    written nor refused with [UnknownControlError]: the map lookup finds
    the inherited function, the call is logged, and [stdin.write] throws
    its [TypeError]. *)
Theorem sendControl_inherited_key now :
  sendControl (utf16 "s") (utf16 "toString") now started
  = (log (LogSendingControl (utf16 "toString") (utf16 "s")) started,
     Throw InvalidArgTypeError)
  /\ message InvalidArgTypeError
     <> message (UnknownControlError (utf16 "toString")).
Proof.
  split.
  - apply (sendControl_inherited _ _ _ _ 0%nat newSession); try reflexivity.
    refine (bool_decide_unpack _ _). vm_compute. exact I.
  - vm_compute. discriminate.
Qed.

(** ** Witnesses and counterexamples for the lifecycle statements *)

Lemma wf_twoSessions : wf twoSessions.
Proof. apply wf_create, wf_create, wf_empty. Defined.

Lemma kill_spec_witness :
  kill posix (utf16 "u") graceEvents [] twoSessions = twoSessions
  /\ Map.has (utf16 "s") (sessions (kill posix (utf16 "s") graceEvents [] twoSessions))
     = false.
Proof.
  pose proof (kill_spec posix twoSessions (utf16 "u") graceEvents [] wf_twoSessions)
    as [Hunknown _].
  pose proof (kill_spec posix twoSessions (utf16 "s") graceEvents [] wf_twoSessions)
    as [_ Hknown].
  split.
  - apply Hunknown. reflexivity.
  - apply (Hknown 0%nat). reflexivity.
Defined.

Lemma shutdown_twice_witness :
  sessions (shutdown posix graceEvents [] twoSessions) = []
  /\ shutdown posix [] [] (shutdown posix graceEvents [] twoSessions)
     = log LogAllTerminated
         (log LogShuttingDown (shutdown posix graceEvents [] twoSessions)).
Proof.
  pose proof (shutdown_twice posix twoSessions graceEvents [] [] [] wf_twoSessions)
    as Htwice.
  cbv zeta in Htwice. destruct Htwice as (_ & Hempty & _ & _ & Hsecond & _).
  split; assumption.
Defined.



(** [sendText] then no longer throws [OfflineError]: it makes its
    [stdin.write] call and returns, although the child has ended. *)
Example revived_session_takes_calls :
  snd (sendText (utf16 "s") (utf16 "hello") 2200
         (steps posix (exitedWith posix (Exited 0)) [UpdateStatus (utf16 "s") idle 2100]))
  = Return tt.
Proof. vm_compute. reflexivity. Qed.

(** [kill] never reaches [SIGKILL] once [SIGTERM] was delivered: [killed]
    is then set.  A child that ignores [SIGTERM] gets no second signal. *)
Example sigkill_not_sent :
  (fun st => signalsSent (process st))
    <$> store (kill posix (utf16 "s") [] [] started) !! 0%nat
  = Some [SIGTERM].
Proof. vm_compute. reflexivity. Qed.

(** * Further properties *)

(** ** Lines *)

Lemma matchAt_reNewline_lf q t :
  matchAt reNewline q (LF :: t) = Some (mkState (S q) t []).
Proof. reflexivity. Qed.

Lemma matchAt_reNewline_crlf q t :
  matchAt reNewline q (CR :: LF :: t) = Some (mkState (S (S q)) t []).
Proof. reflexivity. Qed.

Lemma matchAt_reNewline_other q s :
  hd_error s <> Some LF ->
  (forall t, s <> CR :: LF :: t) ->
  matchAt reNewline q s = None.
Proof.
  intros Hlf Hcrlf. unfold matchAt. cbn -[N.eqb].
  destruct s as [|c t]; [reflexivity |].
  cbn -[N.eqb]. unfold charMatches.
  assert (c <> LF) by (intros ->; now apply Hlf).
  destruct (N.eqb_spec CR c) as [<- | Hcr].
  - destruct t as [|d t']; cbn -[N.eqb]; [reflexivity |].
    destruct (N.eqb_spec LF d) as [<- | Hd]; [now destruct (Hcrlf t') |].
    reflexivity.
  - destruct (N.eqb_spec LF c); [congruence | reflexivity].
Qed.

Lemma splitFrom_reNewline fuel q acc s :
  (length s < fuel)%nat ->
  splitFrom fuel reNewline q acc s = linesFrom acc s.
Proof.
  revert q acc s. induction fuel as [|fuel IH]; intros q acc s Hfuel; [lia |].
  destruct s as [|c t]; [reflexivity |].
  cbn [splitFrom linesFrom]. cbn [length] in Hfuel.
  destruct (N.eqb_spec c LF) as [-> | Hlf].
  { rewrite matchAt_reNewline_lf. cbn [endIndex rest].
    replace (S q =? q)%nat with false by (symmetry; apply Nat.eqb_neq; lia).
    cbn [andb]. f_equal. apply IH. lia. }
  destruct (N.eqb_spec c CR) as [-> | Hcr].
  - destruct t as [|d t'].
    + rewrite matchAt_reNewline_other; [apply IH; simpl; lia | discriminate | discriminate].
    + destruct (N.eqb_spec d LF) as [-> | Hd].
      * rewrite matchAt_reNewline_crlf. cbn [endIndex rest].
        replace (S (S q) =? q)%nat with false by (symmetry; apply Nat.eqb_neq; lia).
        cbn [andb]. f_equal. apply IH. cbn [length] in Hfuel. lia.
      * rewrite matchAt_reNewline_other; [apply IH; simpl in *; lia | discriminate |].
        intros t Heq. injection Heq as -> _. congruence.
  - rewrite matchAt_reNewline_other; [apply IH; lia | |].
    + cbn. congruence.
    + intros t' Heq. injection Heq as -> _. congruence.
Qed.

(** [split] by [/\r?\n/] cuts at every line feed and drops a carriage
    return right before it. *)
Lemma split_reNewline s : split reNewline s = linesFrom [] s.
Proof.
  destruct s as [|c t]; [reflexivity |].
  unfold split. apply splitFrom_reNewline. simpl. lia.
Qed.

Lemma linesFrom_last acc line :
  LF ∉ line -> linesFrom acc line = [rev acc ++ line].
Proof.
  revert acc. induction line as [|c t IH]; intros acc Hline.
  - cbn. now rewrite app_nil_r.
  - assert (Hc : c <> LF) by (intros ->; apply Hline; left).
    assert (Ht : LF ∉ t) by (intros Hin; apply Hline; now right).
    cbn [linesFrom]. destruct (N.eqb_spec c LF); [congruence |].
    assert (Hstep : linesFrom (c :: acc) t = [rev acc ++ c :: t]).
    { rewrite IH by assumption. cbn [rev]. now rewrite <- app_assoc. }
    destruct (c =? CR)%N; [| exact Hstep].
    destruct t as [|d t']; [exact Hstep |].
    destruct (N.eqb_spec d LF) as [-> | _]; [| exact Hstep].
    exfalso. apply Ht. left.
Qed.

Lemma linesFrom_line p acc line more :
  isLine line ->
  linesFrom acc (line ++ EOL p ++ more) = (rev acc ++ line) :: linesFrom [] more.
Proof.
  revert acc. induction line as [|c t IH]; intros acc [Hline Hlast].
  - rewrite app_nil_r. destruct p; reflexivity.
  - assert (Hc : c <> LF) by (intros ->; apply Hline; left).
    assert (Ht : isLine t).
    { split; [intros Hin; apply Hline; now right |].
      destruct t as [|d t']; [discriminate | exact Hlast]. }
    cbn [app linesFrom]. destruct (N.eqb_spec c LF); [congruence |].
    assert (Hstep : linesFrom (c :: acc) (t ++ EOL p ++ more)
                    = (rev acc ++ c :: t) :: linesFrom [] more).
    { rewrite IH by assumption. cbn [rev]. now rewrite <- app_assoc. }
    destruct (N.eqb_spec c CR) as [-> | _]; [| exact Hstep].
    destruct t as [|d t'].
    + exfalso. now apply Hlast.
    + cbn [app] in *. destruct (N.eqb_spec d LF) as [-> | _]; [| exact Hstep].
      exfalso. apply (proj1 Ht). left.
Qed.

Lemma linesFrom_join p lines :
  lines <> [] -> Forall isLine lines -> linesFrom [] (join (EOL p) lines) = lines.
Proof.
  induction lines as [|line more IH]; intros Hne Hlines; [congruence |].
  apply Forall_cons in Hlines as [Hline Hmore].
  destruct more as [|next more].
  - cbn [join]. now rewrite linesFrom_last by apply Hline.
  - change (join (EOL p) (line :: next :: more))
      with (line ++ EOL p ++ join (EOL p) (next :: more)).
    rewrite linesFrom_line by assumption. cbn [rev app]. f_equal.
    now apply IH.
Qed.

(** X1.  [split] undoes [join]: lines without a line feed inside and
    without a carriage return at the end, joined by the platform's line
    terminator, come back from [split(/\r?\n/)] as they were, on both
    platforms. *)
Theorem split_join_roundtrip (p : Platform) (lines : list jsstring) :
  lines <> [] -> Forall isLine lines ->
  split reNewline (join (EOL p) lines) = lines.
Proof. intros Hne Hlines. rewrite split_reNewline. now apply linesFrom_join. Qed.

Lemma crlfLines_are_lines : Forall isLine crlfLines.
Proof.
  refine (bool_decide_unpack _ _). vm_compute. exact I.
Defined.

Lemma split_join_roundtrip_witness :
  split reNewline (join (EOL win32) crlfLines) = crlfLines.
Proof.
  apply (split_join_roundtrip win32 crlfLines); [discriminate |].
  exact crlfLines_are_lines.
Defined.

(** ** What the buffer gives back *)

Lemma join_nil (l : list jsstring) : join [] l = concat l.
Proof.
  induction l as [|s t IH]; [reflexivity |].
  destruct t as [|s' t]; [cbn; now rewrite app_nil_r |].
  change (join [] (s :: s' :: t)) with (s ++ [] ++ join [] (s' :: t)).
  now rewrite IH.
Qed.

Lemma pushLines_join p lines :
  concat (pushLines p lines []) = join (EOL p) lines.
Proof.
  induction lines as [|line more IH]; [reflexivity |].
  destruct more as [|next more]; [cbn; now rewrite app_nil_r |].
  change (pushLines p (line :: next :: more) [])
    with (pushLines p (next :: more) ([] ++ [line ++ EOL p])).
  rewrite pushLines_app, concat_app, IH. cbn [app concat].
  now rewrite app_nil_r, <- app_assoc.
Qed.

Lemma join_linesFrom_posix acc s :
  CR ∉ s -> join [LF] (linesFrom acc s) = rev acc ++ s.
Proof.
  revert acc. induction s as [|c t IH]; intros acc Hs.
  - cbn. now rewrite app_nil_r.
  - assert (Hc : c <> CR) by (intros ->; apply Hs; left).
    assert (Ht : CR ∉ t) by (intros Hin; apply Hs; now right).
    cbn [linesFrom]. destruct (N.eqb_spec c LF) as [-> | _].
    + specialize (IH [] Ht). cbn [rev app] in IH.
      destruct (linesFrom [] t) as [|l ls] eqn:Hlines.
      * destruct t; cbn in Hlines; repeat destruct (_ =? _)%N;
          try discriminate; destruct t; try discriminate;
          repeat destruct (_ =? _)%N; discriminate.
      * change (join [LF] (rev acc :: l :: ls))
          with (rev acc ++ [LF] ++ join [LF] (l :: ls)).
        now rewrite IH.
    + destruct (N.eqb_spec c CR); [congruence |].
      rewrite IH by assumption. cbn [rev]. now rewrite <- app_assoc.
Qed.

Lemma lookupSession_data p sessionId w r state appends :
  lookupSession sessionId w = Some (r, state) ->
  lookupSession sessionId (deliverTimed p (dataEvents r appends) w)
  = Some (r, appendAll p appends state).
Proof.
  revert w state. induction appends as [|[now text] appends IH]; intros w state Hfound.
  - exact Hfound.
  - cbn. apply IH. cbn [deliver].
    now apply (lookupSession_update sessionId w r state (appendOutput p now text)).
Qed.

(** X2.  [getAllOutput] reproduces what the child wrote.  After the
    chunks have arrived at a session with an empty buffer, and while no
    more than 200 entries were pushed, the result is the chunks in their
    order, each with its line ends ([\r\n] or [\n]) replaced by [os.EOL];
    on a platform whose [EOL] is the line feed, chunks without carriage
    returns come back unchanged. *)
Theorem getAllOutput_reproduces_stream p sessionId w r state appends :
  lookupSession sessionId w = Some (r, state) ->
  outputBuffer state = [] ->
  (length (concat (map (fun a => pieces p (snd a)) appends)) <= 200)%nat ->
  let w' := deliverTimed p (dataEvents r appends) w in
  getAllOutput sessionId w'
  = Return (concat (map (fun a => join (EOL p) (split reNewline (snd a))) appends))
  /\ (p = posix -> Forall (fun a => CR ∉ snd a) appends ->
      getAllOutput sessionId w' = Return (concat (map snd appends))).
Proof.
  intros Hfound Hempty Hfits w'.
  assert (Hall : getAllOutput sessionId w'
                 = Return (concat (map (fun a => join (EOL p) (split reNewline (snd a)))
                                     appends))).
  { unfold getAllOutput, w'. rewrite (lookupSession_data p _ _ _ _ appends Hfound).
    rewrite appendAll_buffer, Hempty by (rewrite Hempty; simpl; lia).
    cbn [app]. rewrite lastLines_short by assumption. rewrite join_nil. f_equal.
    clear. induction appends as [|a appends IH]; [reflexivity |].
    cbn [map concat]. rewrite concat_app, IH. f_equal. apply pushLines_join. }
  split; [exact Hall |].
  intros -> Hclean. rewrite Hall. f_equal.
  clear -Hclean. induction Hclean as [|a appends Ha _ IH]; [reflexivity |].
  cbn [map concat]. rewrite IH. f_equal.
  rewrite split_reNewline. now apply (join_linesFrom_posix [] (snd a)).
Qed.

Lemma getAllOutput_reproduces_stream_witness :
  getAllOutput (utf16 "s") (deliverTimed posix (dataEvents 0%nat twoChunks) started)
  = Return (utf16 "one" ++ [LF] ++ utf16 "two" ++ [LF]).
Proof.
  pose proof (getAllOutput_reproduces_stream posix (utf16 "s") started 0%nat
                newSession twoChunks) as Hstream.
  cbv zeta in Hstream. destruct Hstream as [_ Hsame].
  - reflexivity.
  - reflexivity.
  - vm_compute. lia.
  - rewrite Hsame; [vm_compute; reflexivity | reflexivity |].
    refine (bool_decide_unpack _ _). vm_compute. exact I.
Defined.

(** ** [getOutput] *)

Lemma slice_from_start {A} (k : Z) (l : list A) :
  0 <= k -> slice k None l = skipn (Z.to_nat k) l.
Proof.
  intros Hk. unfold slice, relativeIndex.
  destruct (Z.ltb_spec k 0); [lia |].
  set (len := Z.of_nat (length l)).
  destruct (Z.le_gt_cases k len).
  - rewrite Z.min_l by assumption. apply firstn_all2. rewrite length_skipn. lia.
  - rewrite Z.min_r by lia. rewrite firstn_all2 by (rewrite length_skipn; lia).
    rewrite !skipn_all2; [reflexivity | lia | lia].
Qed.

Lemma slice_last_n {A} (n : Z) (l : list A) :
  0 < n -> slice (- n) None l = lastLines (Z.to_nat n) l.
Proof.
  intros Hn. unfold slice, relativeIndex, lastLines.
  destruct (Z.ltb_spec (- n) 0); [| lia].
  set (len := Z.of_nat (length l)).
  replace (Z.to_nat (Z.max (len + - n) 0)) with (length l - Z.to_nat n)%nat by lia.
  apply firstn_all2. rewrite length_skipn. lia.
Qed.

(** X3.  [getOutput(id, n)] joins the last [n] buffer entries for a
    positive [n], and the whole buffer when [n] is at least its length.
    For [n = 0] it also returns the whole buffer, not the empty string
    ([slice(-0)] is [slice(0)]), and for a negative [n] it drops the
    first [-n] entries. *)
Theorem getOutput_window sessionId (n : Z) w r state :
  lookupSession sessionId w = Some (r, state) ->
  (0 < n -> getOutput sessionId n w
            = Return (join [] (lastLines (Z.to_nat n) (outputBuffer state))))
  /\ (n = 0 \/ Z.of_nat (length (outputBuffer state)) <= n ->
      getOutput sessionId n w = getAllOutput sessionId w)
  /\ (n < 0 -> getOutput sessionId n w
              = Return (join [] (skipn (Z.to_nat (- n)) (outputBuffer state)))).
Proof.
  intros Hfound. unfold getOutput, getAllOutput. rewrite Hfound.
  split; [| split].
  - intros Hn. now rewrite slice_last_n.
  - intros [-> | Hn].
    + rewrite (slice_from_start 0) by lia. reflexivity.
    + destruct (Z.eq_dec n 0) as [-> | Hne].
      * rewrite (slice_from_start 0) by lia. reflexivity.
      * rewrite slice_last_n by lia. unfold lastLines.
        now replace (length (outputBuffer state) - Z.to_nat n)%nat with 0%nat by lia.
  - intros Hn. rewrite slice_from_start by lia. reflexivity.
Qed.

Lemma getOutput_window_witness :
  getOutput (utf16 "s") 0 (streamed posix [printed scenarioLines])
  = getAllOutput (utf16 "s") (streamed posix [printed scenarioLines]).
Proof.
  pose proof (getOutput_window (utf16 "s") 0 (streamed posix [printed scenarioLines]) 0%nat
                (mkSession (utf16 "s")
                   (mkProcess (Some (mkWritable [] false)) false None None [])
                   4242 idle (buffered posix scenarioLines) 1000 1001))
    as Hwindow.
  destruct Hwindow as (_ & Hall & _); [vm_compute; reflexivity |].
  apply Hall. now left.
Defined.

(** ** [appendOutput] *)

(** X4.  [appendOutput] touches the buffer and [lastActivity] only, and
    the buffer loses entries at its old end only: what was there and what
    the chunk adds is kept in order, except for the oldest entries beyond
    200. *)
Theorem appendOutput_drops_oldest p now text state :
  let state' := appendOutput p now text state in
  let all := outputBuffer state ++ pieces p text in
  all = firstn (length all - 200) all ++ outputBuffer state'
  /\ length (outputBuffer state') = Nat.min (length all) 200
  /\ lastActivity state' = now
  /\ id state' = id state /\ process state' = process state
  /\ pid state' = pid state /\ status state' = status state
  /\ createdAt state' = createdAt state.
Proof.
  intros state' all. subst state'. rewrite appendOutput_buffer. fold all.
  unfold lastLines. split; [now rewrite firstn_skipn |].
  split; [rewrite length_skipn; lia |]. repeat split.
Qed.

(** ** Every call, every event *)

Section MapOrder.
Context {V : Type}.
Implicit Types (m : Map.t V) (k : jsstring).

Lemma Map_delete_sublist k m : sublist (Map.delete k m) m.
Proof.
  induction m as [|[k' v'] m IH]; cbn [Map.delete]; [constructor |].
  destruct (strictEq k k'); now constructor.
Qed.

Lemma Map_get_delete_ne k k' m :
  k' <> k -> Map.get k' (Map.delete k m) = Map.get k' m.
Proof.
  intros Hne. induction m as [|[k0 v0] m IH]; cbn [Map.delete Map.get]; [reflexivity |].
  destruct (strictEq k k0) eqn:Hk.
  - apply strictEq_true in Hk. subst k0.
    destruct (strictEq k' k) eqn:Hk'; [apply strictEq_true in Hk'; congruence | exact IH].
  - cbn [Map.get]. now rewrite IH.
Qed.

Lemma Map_get_app_fresh k k' v m :
  Map.get k' (m ++ [(k, v)])
  = match Map.get k' m with
    | Some v' => Some v'
    | None => if strictEq k' k then Some v else None
    end.
Proof.
  induction m as [|[k0 v0] m IH]; cbn [app Map.get]; [reflexivity |].
  now destruct (strictEq k' k0).
Qed.

Lemma Map_get_None_keys k m : Map.get k m = None -> k ∉ Map.keys m.
Proof.
  intros Hget Hin. apply Map_get_key in Hin as [v Hv]. congruence.
Qed.
End MapOrder.

Section Follows.

Variable p : Platform.

Lemma follows_refl w : follows p w w.
Proof. split; [reflexivity |]. split; [reflexivity | auto]. Qed.

Lemma follows_trans w1 w2 w3 :
  follows p w1 w2 -> follows p w2 w3 -> follows p w1 w3.
Proof.
  intros (Hl1 & Hs1 & Ho1) (Hl2 & Hs2 & Ho2).
  split; [congruence |]. split; [now transitivity (sessions w2) | eauto].
Qed.

Lemma follows_update w0 r f w :
  (forall Q, keeps p Q -> forall st, Q st -> Q (f st)) ->
  follows p w0 w -> follows p w0 (update r f w).
Proof.
  intros Hf Hw. apply (follows_trans _ _ _ Hw).
  split; [apply length_alter |]. split; [reflexivity |].
  intros Q HQ r'. apply objAt_update. intros st. now apply Hf.
Qed.

Lemma follows_log w0 m w : follows p w0 w -> follows p w0 (log m w).
Proof.
  intros Hw. apply (follows_trans _ _ _ Hw).
  split; [reflexivity |]. split; [reflexivity | intros Q HQ r Hr; exact Hr].
Qed.

Lemma follows_delete w0 k w :
  follows p w0 w -> follows p w0 (setSessions (Map.delete k (sessions w)) w).
Proof.
  intros Hw. apply (follows_trans _ _ _ Hw).
  split; [reflexivity |]. split; [apply Map_delete_sublist |].
  intros Q HQ r Hr; exact Hr.
Qed.

End Follows.

Ltac kept :=
  let Q := fresh "Q" in let HQ := fresh "HQ" in
  intros Q HQ; intros;
  first [ now apply (keeps_append _ _ HQ) | now apply (keeps_status _ _ HQ)
        | now apply (keeps_activity _ _ HQ) | now apply (keeps_process _ _ HQ) ].

Ltac follow :=
  repeat first [ assumption | apply follows_log
               | apply follows_delete
               | apply follows_update; [kept |] ].

Section FollowsCalls.

Variable p : Platform.

Lemma deliver_follows w0 now e w :
  follows p w0 w -> follows p w0 (deliver p now e w).
Proof.
  intros Hw. destruct e as [r chunk | r why | r msg]; cbn [deliver].
  - follow.
  - destruct (store w !! r) as [state |]; follow.
  - destruct (store w !! r) as [state |]; follow.
Qed.

Lemma deliverTimed_follows w0 es w :
  follows p w0 w -> follows p w0 (deliverTimed p es w).
Proof.
  unfold deliverTimed. revert w. induction es as [|e es IH]; intros w Hw; cbn.
  - assumption.
  - apply IH. now apply deliver_follows.
Qed.

Lemma killBegin_follows w0 sessionId w :
  follows p w0 w -> follows p w0 (fst (killBegin sessionId w)).
Proof.
  intros Hw. unfold killBegin.
  destruct (lookupSession sessionId w) as [[r state] |]; cbn [fst]; follow.
Qed.

Lemma killEscalate_follows w0 r w :
  follows p w0 w -> follows p w0 (fst (killEscalate r w)).
Proof.
  intros Hw. unfold killEscalate, signal.
  destruct (negb (isKilled r w)); cbn [fst]; follow.
Qed.

Lemma killForce_follows w0 r w :
  follows p w0 w -> follows p w0 (killForce r w).
Proof.
  intros Hw. unfold killForce, signal. destruct (negb (isKilled r w)); follow.
Qed.

Lemma killFinish_follows w0 sessionId r w :
  follows p w0 w -> follows p w0 (killFinish sessionId r w).
Proof.
  intros Hw. unfold killFinish. apply follows_log.
  apply (follows_delete p w0 sessionId (update r (setStatus offline) w)). follow.
Qed.

Lemma kill_follows w0 sessionId grace1 grace2 w :
  follows p w0 w -> follows p w0 (kill p sessionId grace1 grace2 w).
Proof.
  intros Hw. unfold kill.
  pose proof (killBegin_follows w0 sessionId w Hw) as Hbegin.
  destruct (killBegin sessionId w) as [w1 [r |]]; cbn [fst] in Hbegin; [| assumption].
  pose proof (killEscalate_follows w0 r _ (deliverTimed_follows w0 grace1 _ Hbegin))
    as Hescalate.
  destruct (killEscalate r (deliverTimed p grace1 w1)) as [w2 [|]]; cbn [fst] in *;
    apply killFinish_follows; [| assumption].
  now apply killForce_follows, deliverTimed_follows.
Qed.

Lemma beginAll_follows w0 ids w :
  follows p w0 w -> follows p w0 (fst (beginAll ids w)).
Proof.
  revert w. induction ids as [|k ids IH]; intros w Hw; [assumption |].
  cbn [beginAll]. pose proof (killBegin_follows w0 k w Hw) as Hbegin.
  destruct (killBegin k w) as [w1 [r |]]; cbn [fst] in Hbegin.
  - specialize (IH w1 Hbegin). now destruct (beginAll ids w1).
  - now apply IH.
Qed.

Lemma escalateAll_follows w0 pending w :
  follows p w0 w -> follows p w0 (fst (escalateAll pending w)).
Proof.
  revert w. induction pending as [|[k r] pending IH]; intros w Hw; [assumption |].
  cbn [escalateAll fst snd].
  pose proof (killEscalate_follows w0 r w Hw) as Hescalate.
  destruct (killEscalate r w) as [w1 [|]]; cbn [fst] in Hescalate.
  - specialize (IH w1 Hescalate). now destruct (escalateAll pending w1).
  - apply IH. now apply killFinish_follows.
Qed.

Lemma forceAll_follows w0 waiting w :
  follows p w0 w -> follows p w0 (forceAll waiting w).
Proof.
  revert w. induction waiting as [|[k r] waiting IH]; intros w Hw; [assumption |].
  cbn [forceAll fst snd]. apply IH.
  now apply killFinish_follows, killForce_follows.
Qed.

Lemma shutdown_follows w0 grace1 grace2 w :
  follows p w0 w -> follows p w0 (shutdown p grace1 grace2 w).
Proof.
  intros Hw. unfold shutdown.
  pose proof (beginAll_follows w0 (Map.keys (sessions (log LogShuttingDown w))) _
                (follows_log p w0 LogShuttingDown w Hw)) as Hbegin.
  destruct (beginAll _ _) as [wb pending]. cbn [fst] in Hbegin.
  apply follows_log. destruct pending as [|p0 pending]; [assumption |].
  pose proof (escalateAll_follows w0 (p0 :: pending) _
                (deliverTimed_follows w0 grace1 wb Hbegin)) as Hescalate.
  destruct (escalateAll _ _) as [we waiting]. cbn [fst] in Hescalate.
  destruct waiting as [|q0 waiting]; [assumption |].
  now apply forceAll_follows, deliverTimed_follows.
Qed.

Lemma sendText_follows w0 sessionId text now w :
  follows p w0 w -> follows p w0 (fst (sendText sessionId text now w)).
Proof.
  intros Hw. unfold sendText.
  destruct (lookupSession sessionId w) as [[r st] |]; [| assumption].
  destruct (notRunning st); cbn [fst]; follow.
Qed.

Lemma sendControl_follows w0 sessionId char now w :
  follows p w0 w -> follows p w0 (fst (sendControl sessionId char now w)).
Proof.
  intros Hw. unfold sendControl.
  destruct (lookupSession sessionId w) as [[r st] |]; [| assumption].
  destruct (notRunning st); [assumption |].
  destruct (negb (truthy (controlMap char))); [assumption |].
  destruct (controlMap char); cbn [fst]; follow.
Qed.

Lemma isAlive_follows w0 sessionId w :
  follows p w0 w -> follows p w0 (fst (isAlive sessionId w)).
Proof.
  intros Hw. unfold isAlive.
  destruct (lookupSession sessionId w) as [[r state] |]; [| assumption].
  destruct (killed (process state) || _); cbn [fst]; follow.
Qed.

Lemma updateStatus_follows w0 sessionId s now w :
  follows p w0 w -> follows p w0 (updateStatus sessionId s now w).
Proof.
  intros Hw. unfold updateStatus.
  destruct (lookupSession sessionId w) as [[r st] |]; follow.
Qed.

(** What [create] does to the manager: nothing to the registry and the
    objects when it throws, one object and one entry more when it
    returns. *)
Lemma create_cases options now child w :
  let w' := fst (create options now child w) in
  (store w' = store w /\ sessions w' = sessions w)
  \/ (exists pid, pid <> 0
        /\ Map.get (opt_id options) (sessions w) = None
        /\ store w' = store w ++ [created options now child pid]
        /\ sessions w' = sessions w ++ [(opt_id options, length (store w))]).
Proof.
  unfold create, Map.has.
  destruct (Map.get (opt_id options) (sessions w)) eqn:Hget; [now left |].
  destruct (childPid child) as [n |]; [| now left].
  destruct (Z.eqb_spec n 0); [now left |].
  right. exists n. cbn [fst log store sessions].
  now rewrite (Map_set_fresh _ _ _ Hget).
Qed.

End FollowsCalls.

Section Reachable.

Variable p : Platform.

(** A call that is not a successful [create] keeps the objects and adds
    no registry entry; a successful [create] adds one object and one
    entry under a free id. *)
Lemma step_cases w c :
  follows p w (step p w c)
  \/ (exists options now child pid,
        pid <> 0
        /\ Map.get (opt_id options) (sessions w) = None
        /\ store (step p w c) = store w ++ [created options now child pid]
        /\ sessions (step p w c)
           = sessions w ++ [(opt_id options, length (store w))]).
Proof.
  destruct c as [opts now child | | | | | | | | | | | | | ]; cbn [step];
    try (left; apply follows_refl).
  - destruct (create_cases opts now child w) as [[Hstore Hsessions] | Hnew].
    + left. split; [now rewrite Hstore |]. split; [now rewrite Hsessions |].
      intros Q _ r. unfold objAt. now rewrite Hstore.
    + right. exists opts, now, child. exact Hnew.
  - left. apply sendText_follows, follows_refl.
  - left. apply sendControl_follows, follows_refl.
  - left. apply kill_follows, follows_refl.
  - left. apply isAlive_follows, follows_refl.
  - left. apply updateStatus_follows, follows_refl.
  - left. apply shutdown_follows, follows_refl.
  - left. apply deliver_follows, follows_refl.
Qed.

Lemma step_keeps_object (Q : SessionState -> Prop) w c r :
  keeps p Q -> objAt r w Q -> objAt r (step p w c) Q.
Proof.
  intros HQ Hr. destruct (step_cases w c) as [(_ & _ & Hobj) | Hnew]; [auto |].
  destruct Hnew as (options & now & child & pid & _ & _ & Hstore & _).
  destruct Hr as (st & Hst & Hq). exists st. split; [| assumption].
  rewrite Hstore, lookup_app_l; [assumption |]. now apply lookup_lt_Some in Hst.
Qed.

Lemma steps_keep_object (Q : SessionState -> Prop) w cs r :
  keeps p Q -> objAt r w Q -> objAt r (steps p w cs) Q.
Proof.
  intros HQ. revert w. induction cs as [|c cs IH]; intros w Hr; [exact Hr |].
  cbn [steps fold_left]. apply IH. now apply step_keeps_object.
Qed.

Lemma step_keeps_all (Q : SessionState -> Prop) w c :
  keeps p Q ->
  (forall options now child pid, pid <> 0 -> Q (created options now child pid)) ->
  Forall Q (store w) -> Forall Q (store (step p w c)).
Proof.
  intros HQ Hnew Hall. destruct (step_cases w c) as [(Hlen & _ & Hobj) | Hcreated].
  - apply Forall_lookup. intros r st' Hst'.
    destruct (lookup_lt_is_Some_2 (store w) r) as [st Hst].
    { rewrite <- Hlen. now apply lookup_lt_Some in Hst'. }
    destruct (Hobj Q HQ r) as (st'' & Hst'' & Hq).
    { exists st. split; [assumption |]. now apply (Forall_lookup_1 _ _ _ _ Hall Hst). }
    congruence.
  - destruct Hcreated as (options & now & child & pid & Hpid & _ & Hstore & _).
    rewrite Hstore. apply Forall_app. split; [assumption |].
    constructor; [now apply Hnew | constructor].
Qed.

Lemma keeps_identity st :
  keeps p (fun st' => id st' = id st /\ pid st' = pid st
                      /\ createdAt st' = createdAt st).
Proof. split; intros; assumption. Qed.

Lemma keeps_bounded :
  keeps p (fun st => (length (outputBuffer st) <= 200)%nat /\ pid st <> 0).
Proof.
  split; intros; try assumption.
  split; [| now destruct H]. rewrite appendOutput_buffer. apply lastLines_length.
Qed.

(** X5.  In every manager that calls and child events lead to, each
    session object, registered or not, has at most 200 buffer entries and
    a pid other than 0. *)
Theorem buffers_stay_bounded (cs : list Call) :
  Forall (fun st => (length (outputBuffer st) <= 200)%nat /\ pid st <> 0)
    (store (steps p empty cs)).
Proof.
  assert (Hgen : forall w,
            Forall (fun st => (length (outputBuffer st) <= 200)%nat /\ pid st <> 0)
              (store w) ->
            Forall (fun st => (length (outputBuffer st) <= 200)%nat /\ pid st <> 0)
              (store (steps p w cs))).
  { induction cs as [|c cs IH]; intros w Hw; [exact Hw |].
    cbn [steps fold_left]. apply IH. apply step_keeps_all; [apply keeps_bounded | | exact Hw].
    intros options now child pid Hpid. split; [cbn; lia | exact Hpid]. }
  apply Hgen. constructor.
Qed.

(** X6.  A session object is never lost and its [id], [pid] and
    [createdAt] never change, whatever is called and whatever the
    children do afterwards. *)
Theorem identity_is_kept w (cs : list Call) r state :
  store w !! r = Some state ->
  exists state', store (steps p w cs) !! r = Some state'
    /\ id state' = id state /\ pid state' = pid state
    /\ createdAt state' = createdAt state.
Proof.
  intros Hst. apply (steps_keep_object _ w cs r (keeps_identity state)).
  exists state. auto.
Qed.

Lemma keeps_id k : keeps p (fun st => id st = k).
Proof. split; intros; assumption. Qed.

Lemma wf_list w :
  wf w -> id <$> list_ w = Map.keys (sessions w).
Proof.
  unfold wf, list_, Map.keys, Map.values. intros Hwf.
  induction (sessions w) as [|[k r] m IH]; [reflexivity |].
  apply Forall_cons in Hwf as [(st & Hst & Hid) Hm].
  cbn in *. rewrite Hst. cbn. rewrite Hid. f_equal. now apply IH.
Qed.

End Reachable.

Lemma identity_is_kept_witness :
  exists state', store (steps posix started (tl busyCalls)) !! 0%nat = Some state'
    /\ id state' = utf16 "s" /\ pid state' = 4242 /\ createdAt state' = 1000.
Proof.
  apply (identity_is_kept posix started (tl busyCalls) 0%nat newSession).
  reflexivity.
Defined.

(** ** [create] *)

Lemma store_extended w (x : SessionState) (m : Map.t ref) :
  Forall (fun kr => objAt (snd kr) w (fun _ => True)) m ->
  omap (fun r => (store w ++ [x]) !! r) (snd <$> m)
  = omap (fun r => store w !! r) (snd <$> m).
Proof.
  induction 1 as [|[k r] m (st & Hst & _) _ IH]; [reflexivity |].
  cbn in *. rewrite lookup_app_l by (now apply lookup_lt_Some in Hst).
  now rewrite IH.
Qed.

Lemma create_returns options now child pid w :
  Map.has (opt_id options) (sessions w) = false ->
  childPid child = Some pid -> pid <> 0 ->
  create options now child w
  = (mkManager (sessions w ++ [(opt_id options, length (store w))])
       (store w ++ [created options now child pid])
       ((logged w ++ [LogCreating (opt_id options) (cwd options)])
          ++ [LogStarted (opt_id options) pid])
       (spawned w ++ [spawnCall options]),
     Return (length (store w))).
Proof.
  intros Hfree Hpid Hnonzero.
  assert (Hget : Map.get (opt_id options) (sessions w) = None).
  { unfold Map.has in Hfree. now destruct (Map.get _ _). }
  unfold create. rewrite Hfree, Hpid.
  destruct (Z.eqb_spec pid 0); [contradiction |].
  cbn [fst snd log sessions store logged spawned].
  rewrite (Map_set_fresh _ _ _ Hget). unfold spawnCall, created.
  now destruct (claudeArgs options).
Qed.

(** X8.  A [create] under a free id whose child was spawned returns the
    new session, registered under the id: [get] gives it as made (idle,
    empty buffer, the child's pid, both time stamps at the call),
    [isAlive] answers [true], [list()] has it as its last element, every
    other id resolves as before, and [spawn] was called once, with the
    default arguments when none were given. *)
Theorem create_registers options now child pid w :
  wf w ->
  Map.has (opt_id options) (sessions w) = false ->
  childPid child = Some pid -> pid <> 0 ->
  let w' := fst (create options now child w) in
  snd (create options now child w) = Return (length (store w))
  /\ get (opt_id options) w' = Some (created options now child pid)
  /\ isAlive (opt_id options) w' = (w', true)
  /\ list_ w' = list_ w ++ [created options now child pid]
  /\ (forall k, k <> opt_id options -> get k w' = get k w)
  /\ spawned w' = spawned w ++ [spawnCall options].
Proof.
  intros Hwf Hfree Hpid Hnonzero.
  assert (Hget : Map.get (opt_id options) (sessions w) = None).
  { unfold Map.has in Hfree. now destruct (Map.get _ _). }
  rewrite (create_returns _ _ _ _ _ Hfree Hpid Hnonzero). cbn [fst snd].
  set (new := created options now child pid).
  assert (Hfound : forall logs spawns,
            lookupSession (opt_id options)
              (mkManager (sessions w ++ [(opt_id options, length (store w))])
                 (store w ++ [new]) logs spawns)
            = Some (length (store w), new)).
  { intros. unfold lookupSession. cbn [sessions store].
    rewrite Map_get_app_fresh, Hget.
    replace (strictEq (opt_id options) (opt_id options)) with true
      by (symmetry; now apply strictEq_true).
    now rewrite list_lookup_middle. }
  split; [reflexivity |]. split; [| split; [| split; [| split]]].
  - unfold get. now rewrite Hfound.
  - unfold isAlive. now rewrite Hfound.
  - unfold list_, Map.values. cbn [sessions store].
    rewrite fmap_app, omap_app, store_extended.
    + cbn. now rewrite list_lookup_middle.
    + eapply Forall_impl; [exact Hwf |]. intros kr (st & Hst & _). exists st. auto.
  - intros k Hk. unfold get, lookupSession. cbn [sessions store].
    rewrite Map_get_app_fresh.
    destruct (Map.get k (sessions w)) as [r |] eqn:Hr.
    + destruct (lookupSession_wf _ _ _ Hwf Hr) as (st & Hst & _).
      apply lookupSession_Some in Hst as [_ Hst].
      rewrite lookup_app_l by (now apply lookup_lt_Some in Hst). reflexivity.
    + replace (strictEq k (opt_id options)) with false
        by (symmetry; now apply strictEq_false). reflexivity.
  - reflexivity.
Qed.

Lemma create_registers_witness :
  get (utf16 "t") twoSessions
  = Some (created otherOptions 1500 (mkSpawnResult (Some 4343) true) 4343).
Proof.
  pose proof (create_registers otherOptions 1500 (mkSpawnResult (Some 4343) true)
                4343 started) as Hcreate.
  cbv zeta in Hcreate. apply Hcreate.
  - apply wf_create, wf_empty.
  - reflexivity.
  - reflexivity.
  - discriminate.
Defined.

(** X9.  When the child cannot be spawned (no pid), [create] throws
    [SpawnError] after its log line and the [spawn] call: no session
    object is made and the registry is unchanged, so the id is still
    free. *)
Theorem create_spawn_failure options now child w :
  Map.has (opt_id options) (sessions w) = false ->
  childPid child = None \/ childPid child = Some 0 ->
  create options now child w
  = (mkManager (sessions w) (store w)
       (logged w ++ [LogCreating (opt_id options) (cwd options)])
       (spawned w ++ [spawnCall options]),
     Throw SpawnError).
Proof.
  intros Hfree Hpid. unfold create. rewrite Hfree. cbn [log sessions store logged spawned].
  unfold spawnCall.
  destruct Hpid as [-> | ->]; now destruct (claudeArgs options).
Qed.

Lemma create_spawn_failure_witness :
  snd (create otherOptions 1500 (mkSpawnResult None true) started) = Throw SpawnError
  /\ sessions (fst (create otherOptions 1500 (mkSpawnResult None true) started))
     = sessions started.
Proof.
  rewrite (create_spawn_failure otherOptions 1500 (mkSpawnResult None true) started).
  - split; reflexivity.
  - reflexivity.
  - now left.
Defined.

(** ** [sendText] and [sendControl] *)

Lemma lookupSession_log m sessionId w :
  lookupSession sessionId (log m w) = lookupSession sessionId w.
Proof. reflexivity. Qed.

Lemma sendText_running sessionId text now w r state s :
  lookupSession sessionId w = Some (r, state) ->
  status state <> offline ->
  stdin (process state) = Some s ->
  sendText sessionId text now w
  = (update r (setLastActivity now)
       (update r (fun st => setProcess (streamWrite (text ++ [LF]) (process st)) st)
          (log (LogSendingText sessionId (slice 0 (Some 50) text)) w)),
     Return tt).
Proof.
  intros Hfound Hstatus Hstdin. unfold sendText. rewrite Hfound.
  unfold notRunning. rewrite Hstdin. now destruct (status state).
Qed.

(** X10.  Texts sent to a running session whose stdin is open arrive in
    the order of the calls, each followed by one line feed and nothing
    else; every call is logged with the first 50 code units of its text;
    the status and the output buffer are as before. *)
Theorem sendText_in_order p sessionId msgs w r state s :
  lookupSession sessionId w = Some (r, state) ->
  status state <> offline ->
  stdin (process state) = Some s -> ended s = false ->
  let w' := steps p w (sendTextCalls sessionId msgs) in
  exists state',
    lookupSession sessionId w' = Some (r, state')
    /\ stdinWritten state' = written s ++ map (fun m => fst m ++ [LF]) msgs
    /\ status state' = status state
    /\ outputBuffer state' = outputBuffer state
    /\ logged w'
       = logged w
         ++ map (fun m => LogSendingText sessionId (slice 0 (Some 50) (fst m))) msgs.
Proof.
  revert w state s. induction msgs as [|[text now] msgs IH];
    intros w state s Hfound Hstatus Hstdin Hopen w'.
  - exists state. unfold stdinWritten. rewrite Hstdin, !app_nil_r. auto.
  - subst w'. cbn [sendTextCalls map steps fold_left step fst snd].
    rewrite (sendText_running _ _ _ _ _ _ _ Hfound Hstatus Hstdin). cbn [fst].
    set (state1 := setLastActivity now
                     (setProcess (streamWrite (text ++ [LF]) (process state)) state)).
    set (w1 := update r _ (update r _ _)).
    assert (Hfound1 : lookupSession sessionId w1 = Some (r, state1)).
    { unfold w1. apply (lookupSession_update _ _ _ _ (setLastActivity now)).
      apply (lookupSession_update sessionId _ r state
               (fun st => setProcess (streamWrite (text ++ [LF]) (process st)) st)).
      exact Hfound. }
  assert (Hstdin1 : stdin (process state1)
                      = Some (mkWritable (written s ++ [text ++ [LF]]) false)).
    { unfold state1, streamWrite. cbn. now rewrite Hstdin, Hopen. }
    destruct (IH w1 state1 _ Hfound1 Hstatus Hstdin1 eq_refl)
      as (state' & Hfound' & Hwritten & Hstatus' & Hbuffer & Hlog).
    exists state'. split; [exact Hfound' |].
    split; [rewrite Hwritten; cbn; now rewrite <- app_assoc |].
    split; [exact Hstatus' |]. split; [exact Hbuffer |].
    fold (sendTextCalls sessionId msgs). fold (steps p w1 (sendTextCalls sessionId msgs)).
    rewrite Hlog. unfold w1. cbn. now rewrite <- app_assoc.
Qed.

Lemma sendText_in_order_witness :
  exists state',
    lookupSession (utf16 "s") (steps posix started (sendTextCalls (utf16 "s") twoMessages))
    = Some (0%nat, state')
    /\ stdinWritten state' = [utf16 "first" ++ [LF]; utf16 "second" ++ [LF]].
Proof.
  pose proof (sendText_in_order posix (utf16 "s") twoMessages started 0%nat newSession
                (mkWritable [] false)) as Hsent.
  cbv zeta in Hsent.
  destruct Hsent as (state' & Hfound & Hwritten & _);
    [reflexivity | discriminate | reflexivity | reflexivity |].
  exists state'. split; assumption.
Defined.

(** X11.  [sendControl] on a registered session leaves the registry, the
    status and the output buffer alone, and what it writes to stdin is
    nothing or exactly one code unit: [\x03], [\x04] or [\x1a]. *)
Theorem sendControl_writes_one_byte sessionId char now w r state :
  lookupSession sessionId w = Some (r, state) ->
  let w' := fst (sendControl sessionId char now w) in
  sessions w' = sessions w
  /\ exists state',
       lookupSession sessionId w' = Some (r, state')
       /\ status state' = status state
       /\ outputBuffer state' = outputBuffer state
       /\ (stdinWritten state' = stdinWritten state
           \/ exists byte, byte ∈ [0x03%N; 0x04%N; 0x1a%N]
                /\ stdinWritten state' = stdinWritten state ++ [[byte]]).
Proof.
  intros Hfound w'. subst w'. unfold sendControl. rewrite Hfound.
  destruct (notRunning state) eqn:Hrunning.
  { split; [reflexivity |]. exists state. auto. }
  assert (Hbyte : forall byte,
            byte ∈ [0x03%N; 0x04%N; 0x1a%N] ->
            let w1 := update r (setLastActivity now)
                        (update r (fun st => setProcess (streamWrite [byte] (process st)) st)
                           (log (LogSendingControl char sessionId) w)) in
            sessions w1 = sessions w
            /\ exists state',
                 lookupSession sessionId w1 = Some (r, state')
                 /\ status state' = status state
                 /\ outputBuffer state' = outputBuffer state
                 /\ (stdinWritten state' = stdinWritten state
                     \/ exists b, b ∈ [0x03%N; 0x04%N; 0x1a%N]
                          /\ stdinWritten state' = stdinWritten state ++ [[b]])).
  { intros byte Hin w1. split; [reflexivity |].
    exists (setLastActivity now (setProcess (streamWrite [byte] (process state)) state)).
    split.
    - unfold w1.
      apply (lookupSession_update sessionId _ r
               (setProcess (streamWrite [byte] (process state)) state)
               (setLastActivity now)).
      apply (lookupSession_update sessionId _ r state
               (fun st => setProcess (streamWrite [byte] (process st)) st)).
      exact Hfound.
    - split; [reflexivity |]. split; [reflexivity |].
      unfold stdinWritten, streamWrite. cbn.
      destruct (stdin (process state)) as [s |] eqn:Hstdin; cbn; [| left; now rewrite Hstdin].
      destruct (ended s); [now left |]. right. exists byte. auto. }
  unfold controlMap.
  destruct (strictEq char (utf16 "C-c")).
  { apply Hbyte. left. }
  destruct (strictEq char (utf16 "C-d")).
  { apply Hbyte. right. left. }
  destruct (strictEq char (utf16 "C-z")).
  { apply Hbyte. right. right. left. }
  destruct (existsb (strictEq char) objectPrototype); cbn [truthy negb fst];
    (split; [reflexivity |]); exists state; auto.
Qed.

Lemma sendControl_writes_one_byte_witness :
  exists state',
    lookupSession (utf16 "s") (fst (sendControl (utf16 "s") (utf16 "C-d") 1100 started))
    = Some (0%nat, state')
    /\ status state' = idle.
Proof.
  pose proof (sendControl_writes_one_byte (utf16 "s") (utf16 "C-d") 1100 started 0%nat
                newSession) as Hsent.
  cbv zeta in Hsent. destruct Hsent as (_ & state' & Hfound & Hstatus & _); [reflexivity |].
  exists state'. split; assumption.
Defined.

(** ** [kill] and the child-process handle *)

Section KillHandle.

Variable p : Platform.

Lemma sameHandle_refl state : sameHandle state state.
Proof. repeat split; auto. Qed.

Lemma sameHandle_trans a b c : sameHandle a b -> sameHandle b c -> sameHandle a c.
Proof.
  intros (Hk1 & Hs1 & Hi1 & He1) (Hk2 & Hs2 & Hi2 & He2).
  repeat split; try congruence. auto.
Qed.

Lemma processExit_exited why proc : hasExited (processExit why proc) = true.
Proof. destruct why; unfold hasExited; cbn; [reflexivity |]. now destruct (exitCode proc). Qed.

Lemma deliver_sameHandle now e w r state :
  store w !! r = Some state ->
  objAt r (deliver p now e w) (sameHandle state).
Proof.
  intros Hst.
  assert (Hr : objAt r w (sameHandle state))
    by (exists state; split; [assumption | apply sameHandle_refl]).
  destruct e as [r' chunk | r' why | r' msg]; cbn [deliver].
  - apply objAt_update; [| exact Hr]. intros st Hsame. exact Hsame.
  - destruct (store w !! r') as [state' |]; [| exact Hr].
    apply objAt_update; [intros st Hsame; exact Hsame |].
    apply objAt_update; [| exact Hr].
    intros st (Hk & Hs & Hi & He). repeat split; cbn [setProcess process].
    + now destruct why.
    + now destruct why.
    + now rewrite processExit_stdin.
    + intros _. apply processExit_exited.
  - destruct (store w !! r') as [state' |]; [| exact Hr].
    apply objAt_update; [intros st Hsame; exact Hsame | exact Hr].
Qed.

Lemma deliverTimed_sameHandle es w r state :
  store w !! r = Some state ->
  objAt r (deliverTimed p es w) (sameHandle state).
Proof.
  unfold deliverTimed. revert w state.
  induction es as [|e es IH]; intros w state Hst.
  - exists state. split; [assumption | apply sameHandle_refl].
  - cbn. destruct (deliver_sameHandle (fst e) (snd e) w r state Hst) as (st1 & Hst1 & Hsame1).
    destruct (IH _ _ Hst1) as (st2 & Hst2 & Hsame2).
    exists st2. split; [assumption |]. now apply (sameHandle_trans _ st1).
Qed.

Lemma deliver_sessions now e w : sessions (deliver p now e w) = sessions w.
Proof.
  destruct e as [r chunk | r why | r msg]; cbn [deliver]; [reflexivity | |].
  - now destruct (store w !! r).
  - now destruct (store w !! r).
Qed.

Lemma deliverTimed_sessions es w : sessions (deliverTimed p es w) = sessions w.
Proof.
  unfold deliverTimed. revert w. induction es as [|e es IH]; intros w; [reflexivity |].
  cbn. now rewrite IH, deliver_sessions.
Qed.

Lemma streamEnd_stdin proc :
  stdin (streamEnd proc) = (fun s => mkWritable (written s) true) <$> stdin proc.
Proof.
  unfold streamEnd. destruct (stdin proc) as [s |] eqn:Hs; cbn; [reflexivity | exact Hs].
Qed.

Lemma streamEnd_handle proc :
  killed (streamEnd proc) = killed proc
  /\ signalsSent (streamEnd proc) = signalsSent proc
  /\ hasExited (streamEnd proc) = hasExited proc.
Proof. unfold streamEnd, hasExited. now destruct (stdin proc). Qed.

Lemma store_update_eq r f w state :
  store w !! r = Some state -> store (update r f w) !! r = Some (f state).
Proof. intros Hst. cbn [update store]. now rewrite list_lookup_alter_eq, Hst. Qed.

(** X12.  What [kill] does to the child of a registered session: stdin
    is ended with nothing more written, the status is set to [offline],
    and the only signal it can send is one [SIGTERM].  [SIGKILL] is never
    sent: the second test reads the [killed] flag, which the delivered
    [SIGTERM] has set.  A child that is running when the first timer
    fires does get the [SIGTERM]. *)
Theorem kill_sends_sigterm_only sessionId grace1 grace2 w r state :
  lookupSession sessionId w = Some (r, state) ->
  exists state',
    store (kill p sessionId grace1 grace2 w) !! r = Some state'
    /\ status state' = offline
    /\ stdin (process state')
       = (fun s => mkWritable (written s) true) <$> stdin (process state)
    /\ (signalsSent (process state') = signalsSent (process state)
        \/ (killed (process state) = false
            /\ signalsSent (process state') = signalsSent (process state) ++ [SIGTERM]))
    /\ (grace1 = [] -> killed (process state) = false ->
        hasExited (process state) = false ->
        signalsSent (process state') = signalsSent (process state) ++ [SIGTERM]).
Proof.
  intros Hfound. pose proof (lookupSession_Some _ _ _ _ Hfound) as [_ Hst].
  unfold kill, killBegin. rewrite Hfound.
  set (state1 := setProcess (streamEnd (process state)) state).
  set (w1 := update r _ (log _ w)).
  assert (Hst1 : store w1 !! r = Some state1)
    by (unfold w1;
        exact (store_update_eq r (fun st => setProcess (streamEnd (process st)) st)
                 _ state Hst)).
  assert (Hstdin1 : stdin (process state1)
                    = (fun s => mkWritable (written s) true) <$> stdin (process state))
    by apply streamEnd_stdin.
  assert (Hkilled1 : killed (process state1) = killed (process state))
    by apply streamEnd_handle.
  assert (Hsent1 : signalsSent (process state1) = signalsSent (process state))
    by apply streamEnd_handle.
  assert (Hexit1 : hasExited (process state1) = hasExited (process state))
    by apply streamEnd_handle.
  destruct (deliverTimed_sameHandle grace1 w1 r state1 Hst1)
    as (state2 & Hst2 & Hk2 & Hs2 & Hi2 & He2).
  set (w2 := deliverTimed p grace1 w1) in *.
  unfold killEscalate, isKilled. rewrite Hst2.
  destruct (killed (process state2)) eqn:Hkilled2; cbn [negb].
  - (* signalled before: no timer, no signal *)
    exists (setStatus offline state2). unfold killFinish. cbn [log setSessions store].
    split; [now apply (store_update_eq r (setStatus offline)) |]. split; [reflexivity |].
    cbn [setStatus process]. split; [congruence |]. split; [left; congruence |].
    intros _ Hk. congruence.
  - set (state3 := setProcess (processKill SIGTERM (process state2)) state2).
    set (w3 := signal SIGTERM r w2).
    assert (Hst3 : store w3 !! r = Some state3)
      by (unfold w3, signal;
          exact (store_update_eq r
                   (fun st => setProcess (processKill SIGTERM (process st)) st)
                   w2 state2 Hst2)).
    destruct (deliverTimed_sameHandle grace2 w3 r state3 Hst3)
      as (state4 & Hst4 & Hk4 & Hs4 & Hi4 & He4).
    set (w4 := deliverTimed p grace2 w3) in *.
    assert (Hforce : exists state5,
               store (killForce r w4) !! r = Some state5
               /\ stdin (process state5) = stdin (process state4)
               /\ signalsSent (process state5) = signalsSent (process state4)).
    { unfold killForce, isKilled. rewrite Hst4.
      destruct (killed (process state4)) eqn:Hkilled4; cbn [negb]; [eauto |].
      exists (setProcess (processKill SIGKILL (process state4)) state4).
      split; [unfold signal;
              exact (store_update_eq r
                       (fun st => setProcess (processKill SIGKILL (process st)) st)
                       w4 state4 Hst4) |].
      cbn [setProcess process]. rewrite processKill_stdin. split; [reflexivity |].
      (* the child had ended when SIGTERM was tried, and it still has *)
      assert (Hdead : hasExited (process state4) = true).
      { apply He4. unfold state3 in Hk4 |- *. cbn [setProcess process] in *.
        unfold processKill in *. destruct (hasExited (process state2)) eqn:Hdead2;
          [exact Hdead2 |]. cbn in Hk4. congruence. }
      unfold processKill. now rewrite Hdead. }
    destruct Hforce as (state5 & Hst5 & Hi5 & Hs5).
    exists (setStatus offline state5). unfold killFinish. cbn [log setSessions store].
    split; [now apply (store_update_eq r (setStatus offline)) |]. split; [reflexivity |].
    cbn [setStatus process].
    assert (Hstdin3 : stdin (process state3) = stdin (process state2))
      by (unfold state3; cbn [setProcess process]; apply processKill_stdin).
    split; [congruence |].
    assert (Hsent3 : signalsSent (process state3)
                     = if hasExited (process state2) then signalsSent (process state2)
                       else signalsSent (process state2) ++ [SIGTERM]).
    { unfold state3, processKill. cbn [setProcess process].
      now destruct (hasExited (process state2)). }
    split.
    + destruct (hasExited (process state2)); [left; congruence |].
      right. split; [congruence |]. congruence.
    + intros -> _ Hrunning. unfold w2 in Hst2.
      change (store w1 !! r = Some state2) in Hst2.
      rewrite Hst1 in Hst2. injection Hst2 as <-.
      rewrite Hexit1, Hrunning in Hsent3. congruence.
Qed.

Lemma killEscalate_sessions r w : sessions (fst (killEscalate r w)) = sessions w.
Proof. unfold killEscalate. now destruct (negb (isKilled r w)). Qed.

Lemma killForce_sessions r w : sessions (killForce r w) = sessions w.
Proof. unfold killForce. now destruct (negb (isKilled r w)). Qed.

Lemma kill_sessions sessionId grace1 grace2 w r state :
  lookupSession sessionId w = Some (r, state) ->
  sessions (kill p sessionId grace1 grace2 w) = Map.delete sessionId (sessions w).
Proof.
  intros Hfound. unfold kill, killBegin. rewrite Hfound.
  set (w1 := update r _ (log _ w)).
  pose proof (killEscalate_sessions r (deliverTimed p grace1 w1)) as Hescalate.
  destruct (killEscalate r (deliverTimed p grace1 w1)) as [w3 again].
  cbn [fst] in Hescalate. rewrite deliverTimed_sessions in Hescalate.
  destruct again; unfold killFinish; cbn [log setSessions sessions update].
  - now rewrite killForce_sessions, deliverTimed_sessions, Hescalate.
  - now rewrite Hescalate.
Qed.

(** X13.  [kill] takes its own id out of the registry and no other:
    every other id resolves to the reference it had. *)
Theorem kill_leaves_others sessionId grace1 grace2 w k :
  k <> sessionId ->
  Map.get k (sessions (kill p sessionId grace1 grace2 w)) = Map.get k (sessions w).
Proof.
  intros Hne.
  destruct (lookupSession sessionId w) as [[r state] |] eqn:Hfound.
  - rewrite (kill_sessions _ _ _ _ _ _ Hfound). now apply Map_get_delete_ne.
  - now rewrite kill_unknown.
Qed.

End KillHandle.

Lemma kill_sends_sigterm_only_witness :
  exists state',
    store (kill posix (utf16 "s") [] [] twoSessions) !! 0%nat = Some state'
    /\ signalsSent (process state') = [SIGTERM].
Proof.
  destruct (kill_sends_sigterm_only posix (utf16 "s") [] [] twoSessions 0%nat newSession)
    as (state' & Hst & _ & _ & _ & Hsent); [reflexivity |].
  exists state'. split; [exact Hst |]. now apply Hsent.
Defined.

Lemma kill_leaves_others_witness :
  Map.get (utf16 "t") (sessions (kill posix (utf16 "s") graceEvents [] twoSessions))
  = Some 1%nat.
Proof.
  rewrite (kill_leaves_others posix (utf16 "s") graceEvents [] twoSessions (utf16 "t"));
    [reflexivity | discriminate].
Defined.

(** ** [isAlive] *)

(** X14.  [isAlive] writes no log line and leaves the registry alone.
    When it answers [true] the manager is unchanged and the handle shows
    neither [killed] nor an exit code; when it answers [false] the id is
    unknown, or the handle shows one of the two and the status is now
    [offline].  Asking again gives the same answer and changes nothing
    more. *)
Theorem isAlive_answers sessionId w :
  let w' := fst (isAlive sessionId w) in
  let alive := snd (isAlive sessionId w) in
  sessions w' = sessions w /\ logged w' = logged w
  /\ (alive = true ->
      w' = w /\ exists r state,
        lookupSession sessionId w = Some (r, state)
        /\ killed (process state) = false /\ exitCode (process state) = None)
  /\ (alive = false ->
      (lookupSession sessionId w = None /\ w' = w)
      \/ exists r state,
           lookupSession sessionId w = Some (r, state)
           /\ lookupSession sessionId w' = Some (r, setStatus offline state)
           /\ (killed (process state) = true \/ exitCode (process state) <> None))
  /\ isAlive sessionId w' = (w', alive).
Proof.
  cbv zeta.
  destruct (lookupSession sessionId w) as [[r state] |] eqn:Hfound.
  - destruct (killed (process state)
              || match exitCode (process state) with Some _ => true | None => false end)
      eqn:Hdead.
    + assert (Hcall : isAlive sessionId w = (update r (setStatus offline) w, false))
        by (unfold isAlive; now rewrite Hfound, Hdead).
      rewrite Hcall. cbn [fst snd].
      pose proof (lookupSession_update _ _ _ _ (setStatus offline) Hfound) as Hafter.
      split; [reflexivity |]. split; [reflexivity |]. split; [discriminate |]. split.
      * intros _. right. exists r, state. split; [auto |]. split; [auto |].
        destruct (killed (process state)); [now left |]. right.
        destruct (exitCode (process state)); [discriminate | discriminate].
      * unfold isAlive. rewrite Hafter. cbn [setStatus process]. rewrite Hdead.
        f_equal. unfold update. cbn [sessions store logged spawned]. f_equal.
        rewrite list_alter_alter_eq. now apply list_alter_ext.
    + assert (Hcall : isAlive sessionId w = (w, true))
        by (unfold isAlive; now rewrite Hfound, Hdead).
      rewrite Hcall. cbn [fst snd].
      split; [reflexivity |]. split; [reflexivity |]. split; [| split; [discriminate | exact Hcall]].
      intros _. split; [reflexivity |]. exists r, state. split; [reflexivity |].
      apply orb_false_iff in Hdead as [Hkilled Hcode].
      split; [exact Hkilled |]. now destruct (exitCode (process state)).
  - assert (Hcall : isAlive sessionId w = (w, false))
      by (unfold isAlive; now rewrite Hfound).
    rewrite Hcall. cbn [fst snd].
    split; [reflexivity |]. split; [reflexivity |]. split; [discriminate |].
    split; [now left | exact Hcall].
Qed.

(** ** [detectBypassWarning] *)

Lemma startsWith_spec (pat s : jsstring) :
  startsWith pat s = true <-> exists b, s = pat ++ b.
Proof.
  revert s. induction pat as [|c pat IH]; intros s; cbn [startsWith].
  - split; [intros _; now exists s | reflexivity].
  - destruct s as [|d s].
    + split; [discriminate | intros [b Hb]; discriminate].
    + rewrite andb_true_iff, N.eqb_eq, IH. split.
      * intros [-> [b ->]]. now exists b.
      * intros [b Hb]. injection Hb as -> ->. split; [reflexivity | now exists b].
Qed.

Lemma includes_spec (pat s : jsstring) :
  includes pat s = true <-> exists a b, s = a ++ pat ++ b.
Proof.
  induction s as [|c s IH]; cbn [includes]; rewrite orb_true_iff, startsWith_spec.
  - split.
    + intros [[b Hb] | Hfalse]; [now exists [], b | discriminate].
    + intros (a & b & Hs). left. destruct a; [now exists b | discriminate].
  - rewrite IH. split.
    + intros [[b Hb] | (a & b & ->)]; [now exists [], b | now exists (c :: a), b].
    + intros (a & b & Hs). destruct a as [|c' a]; [left; now exists b |].
      right. injection Hs as -> ->. now exists a, b.
Qed.

(** X15.  [detectBypassWarning] answers [true] exactly when the text of
    the last 50 buffer entries holds both ["WARNING"] and
    ["Bypass Permissions mode"] somewhere, in these letter cases; the
    entries are joined first, so a phrase may run across entries. *)
Theorem detectBypassWarning_substrings sessionId w output :
  getOutput sessionId 50 w = Return output ->
  (detectBypassWarning sessionId w = Return true <->
     (exists a b, output = a ++ utf16 "WARNING" ++ b)
     /\ (exists a b, output = a ++ utf16 "Bypass Permissions mode" ++ b))
  /\ (detectBypassWarning sessionId w = Return true
      \/ detectBypassWarning sessionId w = Return false).
Proof.
  intros Houtput. unfold detectBypassWarning. rewrite Houtput.
  rewrite <- !includes_spec, <- andb_true_iff.
  split.
  - split; [intros Heq; now injection Heq | intros ->; reflexivity].
  - destruct (_ && _); auto.
Qed.

Lemma detectBypassWarning_substrings_witness :
  detectBypassWarning (utf16 "s")
    (streamed posix [utf16 "WARNING: Claude is running in Bypass Per";
                     utf16 "missions mode"])
  = Return true.
Proof.
  pose proof (detectBypassWarning_substrings (utf16 "s")
                (streamed posix [utf16 "WARNING: Claude is running in Bypass Per";
                                 utf16 "missions mode"])
                warningText) as Hwarning.
  destruct Hwarning as [Hiff _]; [vm_compute; reflexivity |].
  apply Hiff. split.
  - exists [], (utf16 ": Claude is running in Bypass Permissions mode").
    vm_compute. reflexivity.
  - exists (utf16 "WARNING: Claude is running in "), []. vm_compute. reflexivity.
Defined.

(** ** The shape of a detected prompt *)

Lemma trimStart_clean s : startsClean (trimStart s).
Proof.
  induction s as [|c s IH]; cbn; [exact I |].
  destruct (isSpace c) eqn:Hc; [exact IH | exact Hc].
Qed.

Lemma trimStart_of_clean s : startsClean s -> trimStart s = s.
Proof. destruct s as [|c s]; cbn; [reflexivity |]. now intros ->. Qed.

Lemma trimStart_suffix s : exists pre, s = pre ++ trimStart s.
Proof.
  induction s as [|c s [pre IH]]; [now exists [] |].
  cbn. destruct (isSpace c); [| now exists []].
  exists (c :: pre). cbn. now f_equal.
Qed.

Lemma startsClean_prefix a b : startsClean (a ++ b) -> a <> [] -> startsClean a.
Proof. destruct a; [congruence | auto]. Qed.

(** [trim] leaves no white space at either end: trimming again changes
    nothing. *)
Lemma trim_trim s : trim (trim s) = trim s.
Proof.
  unfold trim. set (t := trimStart s). set (u := trimStart (rev t)).
  assert (Hu : startsClean u) by apply trimStart_clean.
  assert (Hru : startsClean (rev u)).
  { destruct (trimStart_suffix (rev t)) as [pre Hpre]. fold u in Hpre.
    assert (Ht : t = rev u ++ rev pre)
      by (rewrite <- rev_app_distr, <- Hpre; now rewrite rev_involutive).
    destruct u as [|c u'] eqn:Hcase; [exact I |].
    apply (startsClean_prefix _ (rev pre)).
    - rewrite <- Ht. apply trimStart_clean.
    - intros Hnil. apply (f_equal (@length N)) in Hnil.
      rewrite length_rev in Hnil. discriminate. }
  rewrite (trimStart_of_clean _ Hru), rev_involutive.
  now rewrite (trimStart_of_clean _ Hu).
Qed.

Lemma collectOptions_shape lines n i acc :
  Forall (fun o => trim (label o) = label o) acc ->
  Forall (fun o => trim (label o) = label o) (collectOptions lines n i acc)
  /\ (length (collectOptions lines n i acc) <= length acc + n)%nat.
Proof.
  revert i acc. induction n as [|n IH]; intros i acc Hacc; cbn [collectOptions].
  - split; [assumption | lia].
  - destruct (test reEsc (lineAt lines i)); [split; [assumption | lia] |].
    destruct (exec reOption (lineAt lines i)) as [optionMatch |].
    + destruct (IH (i + 1) (acc ++ [mkOption (capture 1 (captures optionMatch))
                                      (trim (capture 2 (captures optionMatch)))]))
        as [Hclean Hcount].
      { apply Forall_app. split; [assumption |].
        constructor; [apply trim_trim | constructor]. }
      split; [assumption |]. rewrite length_app in Hcount. cbn in Hcount. lia.
    + destruct (IH (i + 1) acc Hacc) as [Hclean Hcount]. split; [assumption | lia].
Qed.

(** X16.  A detected prompt has between 2 and 9 options (the options
    loop reads the 9 lines after the question), every label and the
    context are trimmed, and the options are the ones collected from the
    lines after the question. *)
Theorem prompt_shape output prompt :
  parsePermissionPrompt output = Some prompt ->
  (2 <= length (options prompt) <= 9)%nat
  /\ Forall (fun o => trim (label o) = label o) (options prompt)
  /\ trim (context prompt) = context prompt.
Proof.
  intros Hparse. unfold parsePermissionPrompt in Hparse.
  set (lines := split reNewline output) in Hparse.
  set (len := Z.of_nat (length lines)) in Hparse.
  set (idx := findProceed lines _ _) in Hparse.
  destruct (idx =? -1); [discriminate |].
  destruct (verifyFooter lines _ (idx + 1) false) as [hasFooter hasSelector].
  destruct (negb hasFooter && negb hasSelector); [discriminate |].
  set (n := upCount (idx + 1) (Z.min len (idx + 10))) in Hparse.
  destruct (collectOptions_shape lines n (idx + 1) []) as [Hclean Hcount];
    [constructor |].
  set (opts := collectOptions lines n (idx + 1) []) in *.
  destruct (Z.ltb_spec (Z.of_nat (length opts)) 2); [discriminate |].
  injection Hparse as <-. cbn [options context].
  split; [| split; [exact Hclean | apply trim_trim]].
  assert (n <= 9)%nat by (unfold n, upCount; lia).
  cbn [length] in Hcount. lia.
Qed.

Lemma prompt_shape_witness :
  (2 <= length (options scenarioPrompt) <= 9)%nat
  /\ trim (context scenarioPrompt) = context scenarioPrompt.
Proof.
  destruct (prompt_shape (printed scenarioLines) scenarioPrompt) as (Hcount & _ & Htrim).
  - vm_compute. reflexivity.
  - split; assumption.
Defined.

Lemma findProceed_none lines n i :
  (forall j, i - Z.of_nat n < j <= i -> test reProceed (lineAt lines j) = false) ->
  findProceed lines n i = -1.
Proof.
  revert i. induction n as [|n IH]; intros i Hnone; [reflexivity |].
  cbn [findProceed]. rewrite Hnone by lia. apply IH. intros j Hj. apply Hnone. lia.
Qed.

Lemma lineAt_last30 (lines : list jsstring) (j : Z) :
  Z.max 0 (Z.of_nat (length lines) - 30) <= j < Z.of_nat (length lines) ->
  lineAt lines j ∈ lastLines 30 lines.
Proof.
  intros Hj. unfold lineAt, lastLines.
  destruct (lookup_lt_is_Some_2 lines (Z.to_nat j)) as [line Hline]; [lia |].
  rewrite (nth_lookup_Some _ _ _ _ Hline).
  apply list_elem_of_lookup. exists (Z.to_nat j - (length lines - 30))%nat.
  rewrite lookup_drop. rewrite <- Hline. f_equal. lia.
Qed.

(** X17.  Without a question among the last 30 lines of the output there
    is no prompt: a question that has scrolled further up is not seen,
    and an empty output gives none. *)
Theorem no_question_no_prompt output :
  Forall (fun line => test reProceed line = false)
    (lastLines 30 (split reNewline output)) ->
  parsePermissionPrompt output = None.
Proof.
  intros Hnone. unfold parsePermissionPrompt.
  set (lines := split reNewline output) in *.
  set (len := Z.of_nat (length lines)).
  rewrite findProceed_none; [reflexivity |].
  intros j Hj. unfold downCount in Hj.
  rewrite Forall_forall in Hnone. apply Hnone, lineAt_last30. fold len. lia.
Qed.

Lemma no_question_no_prompt_witness :
  parsePermissionPrompt (printed scrolledLines) = None.
Proof.
  apply (no_question_no_prompt (printed scrolledLines)).
  refine (bool_decide_unpack _ _). vm_compute. exact I.
Defined.

(** ** Detection and the platform *)

Lemma parsePermissionPrompt_lines a b :
  split reNewline a = split reNewline b ->
  parsePermissionPrompt a = parsePermissionPrompt b.
Proof. intros Hlines. unfold parsePermissionPrompt. now rewrite Hlines. Qed.

Lemma pushLines_length p lines :
  length (pushLines p lines []) = length lines.
Proof.
  induction lines as [|line more IH]; [reflexivity |].
  destruct more as [|next more]; [reflexivity |].
  change (pushLines p (line :: next :: more) [])
    with (pushLines p (next :: more) ([] ++ [line ++ EOL p])).
  rewrite pushLines_app, length_app, IH. cbn. lia.
Qed.

(** X18.  What the detector finds does not depend on the platform's line
    terminator: for up to 50 lines in the buffer, framed with [os.EOL]
    as [appendOutput] stores them, [detectPermissionPrompt] returns what
    the parser finds in these lines. *)
Theorem detection_ignores_platform p sessionId w r state lines :
  lookupSession sessionId w = Some (r, state) ->
  outputBuffer state = buffered p lines ->
  lines <> [] -> Forall isLine lines -> (length lines <= 50)%nat ->
  detectPermissionPrompt sessionId w
  = Return (parsePermissionPrompt (printed lines)).
Proof.
  intros Hfound Hbuffer Hne Hlines Hfew.
  rewrite (detectPermissionPrompt_found _ _ _ _ Hfound), Hbuffer. f_equal.
  apply parsePermissionPrompt_lines.
  replace (slice (-50) None (buffered p lines)) with (buffered p lines).
  - unfold buffered, printed. rewrite join_nil, pushLines_join.
    rewrite (split_reNewline (join (EOL p) lines)), (linesFrom_join p lines Hne Hlines).
    rewrite (split_reNewline (join [LF] lines)).
    symmetry. exact (linesFrom_join posix lines Hne Hlines).
  - rewrite (slice_last_n 50) by lia. unfold lastLines, buffered.
    rewrite pushLines_length.
    now replace (length lines - Z.to_nat 50)%nat with 0%nat by lia.
Qed.

Lemma scenarioLines_are_lines : Forall isLine scenarioLines.
Proof. refine (bool_decide_unpack _ _). vm_compute. exact I. Defined.

Lemma detection_ignores_platform_witness :
  detectPermissionPrompt (utf16 "s") (streamed win32 [printed scenarioLines])
  = Return (parsePermissionPrompt (printed scenarioLines)).
Proof.
  apply (detection_ignores_platform win32 (utf16 "s")
           (streamed win32 [printed scenarioLines]) 0%nat
           (mkSession (utf16 "s")
              (mkProcess (Some (mkWritable [] false)) false None None [])
              4242 idle (buffered win32 scenarioLines) 1000 1001) scenarioLines).
  - vm_compute. reflexivity.
  - reflexivity.
  - discriminate.
  - exact scenarioLines_are_lines.
  - vm_compute. lia.
Defined.

(** ** The ['error'] listener *)

(** X19.  An ['error'] event of a child whose session is registered
    sets the status to [offline] and writes one log line; the session
    stays registered and the handle is not touched.  [sendText] then
    throws [OfflineError], while [isAlive] still answers [true] as long
    as the handle shows neither [killed] nor an exit code. *)
Theorem error_event_sets_offline p now sessionId w r state msg :
  lookupSession sessionId w = Some (r, state) ->
  let w' := deliver p now (ErrorEvent r msg) w in
  lookupSession sessionId w' = Some (r, setStatus offline state)
  /\ sessions w' = sessions w
  /\ logged w' = logged w ++ [LogError (id state) msg]
  /\ (forall text t, sendText sessionId text t w' = (w', Throw (OfflineError sessionId)))
  /\ (killed (process state) = false -> exitCode (process state) = None ->
      isAlive sessionId w' = (w', true)).
Proof.
  intros Hfound w'. pose proof (lookupSession_Some _ _ _ _ Hfound) as [_ Hst].
  assert (Hw' : w' = update r (setStatus offline) (log (LogError (id state) msg) w))
    by (unfold w'; cbn [deliver]; now rewrite Hst).
  assert (Hafter : lookupSession sessionId w' = Some (r, setStatus offline state)).
  { rewrite Hw'. apply (lookupSession_update sessionId _ r state (setStatus offline)).
    exact Hfound. }
  split; [exact Hafter |]. split; [now rewrite Hw' |]. split; [now rewrite Hw' |]. split.
  - intros. now apply (sendText_offline _ _ _ _ _ _ Hafter).
  - intros Hkilled Hcode. unfold isAlive. rewrite Hafter. cbn [setStatus process].
    now rewrite Hkilled, Hcode.
Qed.

Lemma error_event_sets_offline_witness :
  isAlive (utf16 "s") (deliver posix 2000 (ErrorEvent 0%nat (utf16 "write EPIPE")) started)
  = (deliver posix 2000 (ErrorEvent 0%nat (utf16 "write EPIPE")) started, true).
Proof.
  pose proof (error_event_sets_offline posix 2000 (utf16 "s") started 0%nat newSession
                (utf16 "write EPIPE")) as Herror.
  cbv zeta in Herror. destruct Herror as (_ & _ & _ & _ & Halive); [reflexivity |].
  apply Halive; reflexivity.
Defined.

(** ** The ['exit'] listener *)

(** X20.  When the child of a registered session ends with an exit
    code, the handle records the code, the status becomes [offline] with
    the buffer and the registry as they were, and one line is logged;
    from then on [isAlive] answers [false], and [sendText] and
    [sendControl] throw [OfflineError] and change nothing. *)
Theorem exit_code_ends_session p now sessionId w r state code :
  lookupSession sessionId w = Some (r, state) ->
  let w' := deliver p now (Exit r (Exited code)) w in
  (exists state',
     lookupSession sessionId w' = Some (r, state')
     /\ status state' = offline /\ exitCode (process state') = Some code
     /\ outputBuffer state' = outputBuffer state)
  /\ sessions w' = sessions w
  /\ logged w' = logged w ++ [LogExited (id state) (Some code)]
  /\ snd (isAlive sessionId w') = false
  /\ (forall text t, sendText sessionId text t w' = (w', Throw (OfflineError sessionId)))
  /\ (forall char t, sendControl sessionId char t w' = (w', Throw (OfflineError sessionId))).
Proof.
  intros Hfound w'. pose proof (lookupSession_Some _ _ _ _ Hfound) as [_ Hst].
  assert (Hafter : lookupSession sessionId w'
                   = Some (r, setStatus offline
                                (setProcess (processExit (Exited code) (process state)) state))).
  { unfold w'. cbn [deliver]. rewrite Hst.
    apply (lookupSession_update _ _ _ _ (setStatus offline)).
    apply (lookupSession_update sessionId w r state
             (fun st => setProcess (processExit (Exited code) (process st)) st)).
    exact Hfound. }
  split; [eexists; split; [exact Hafter | repeat split] |].
  split; [unfold w'; cbn [deliver]; now rewrite Hst |].
  split; [unfold w'; cbn [deliver]; now rewrite Hst |].
  split; [unfold isAlive; rewrite Hafter; cbn; now rewrite orb_true_r |].
  split; [intros; now apply (sendText_offline _ _ _ _ _ _ Hafter) |].
  intros; now apply (sendControl_offline _ _ _ _ _ _ Hafter).
Qed.

Lemma exit_code_ends_session_witness :
  snd (isAlive (utf16 "s") (exitedWith win32 (Exited 1))) = false.
Proof.
  pose proof (exit_code_ends_session win32 2000 (utf16 "s") started 0%nat newSession 1)
    as Hexit.
  cbv zeta in Hexit.
  destruct Hexit as (_ & _ & _ & Hdead & _); [reflexivity |].
  exact Hdead.
Defined.

(** ** The registry in the order of creation *)

Section CreationOrder.

Variable p : Platform.

Lemma Map_delete_fresh {V} k (m : Map.t V) : Map.get k m = None -> Map.delete k m = m.
Proof.
  induction m as [|[k' v'] m IH]; cbn [Map.get Map.delete]; [reflexivity |].
  destruct (strictEq k k'); [discriminate |]. intros Hnone. now rewrite IH.
Qed.

Lemma Map_keys_delete {V} k (m : Map.t V) :
  Map.keys (Map.delete k m) = filter (fun k' => k' <> k) (Map.keys m).
Proof.
  unfold Map.keys. induction m as [|[k' v'] m IH]; cbn [Map.delete fmap list_fmap];
    [reflexivity |].
  rewrite filter_cons. cbn [fst].
  destruct (strictEq k k') eqn:Hk.
  - apply strictEq_true in Hk as ->. rewrite decide_False by tauto. exact IH.
  - apply strictEq_false in Hk. rewrite decide_True by congruence.
    cbn [fmap list_fmap]. now rewrite IH.
Qed.

Lemma Map_get_Some_keys {V} k (m : Map.t V) v : Map.get k m = Some v -> k ∈ Map.keys m.
Proof.
  intros Hget. apply Map_get_elem in Hget. unfold Map.keys.
  apply list_elem_of_fmap. now exists (k, v).
Qed.

Lemma kill_removes sessionId grace1 grace2 w :
  wf w ->
  sessions (kill p sessionId grace1 grace2 w) = Map.delete sessionId (sessions w).
Proof.
  intros Hwf. destruct (Map.get sessionId (sessions w)) as [r |] eqn:Hget.
  - destruct (lookupSession_wf _ _ _ Hwf Hget) as (st & Hfound & _).
    now apply (kill_sessions p _ _ _ _ r st).
  - rewrite kill_unknown; [now rewrite Map_delete_fresh |].
    unfold lookupSession. now rewrite Hget.
Qed.

(** What a call does to the registry's keys is what the call alone
    tells. *)
Lemma step_registered w c :
  wf w ->
  Map.keys (sessions (step p w c)) = registeredAfter (Map.keys (sessions w)) c.
Proof.
  intros Hwf.
  destruct c as [options now child | sessionId text now | sessionId char now
                | | | | | sessionId grace1 grace2 | | | sessionId
                | sessionId s now | grace1 grace2 | now e];
    cbn [step registeredAfter]; try reflexivity.
  - unfold create, Map.has, spawns.
    destruct (Map.get (opt_id options) (sessions w)) as [r |] eqn:Hget.
    + rewrite bool_decide_eq_true_2 by now apply (Map_get_Some_keys _ _ r).
      reflexivity.
    + rewrite bool_decide_eq_false_2 by now apply Map_get_None_keys.
      destruct (childPid child) as [pid |]; [| reflexivity].
      destruct (pid =? 0); [reflexivity |].
      cbn [negb fst log sessions]. rewrite (Map_set_fresh _ _ _ Hget).
      unfold Map.keys. now rewrite fmap_app.
  - unfold sendText. destruct (lookupSession _ _) as [[r st] |]; [| reflexivity].
    now destruct (notRunning st).
  - unfold sendControl. destruct (lookupSession _ _) as [[r st] |]; [| reflexivity].
    destruct (notRunning st); [reflexivity |].
    destruct (negb (truthy (controlMap _))); [reflexivity |].
    now destruct (controlMap _).
  - now rewrite kill_removes, Map_keys_delete.
  - unfold isAlive. destruct (lookupSession _ _) as [[r st] |]; [| reflexivity].
    now destruct (killed (process st) || _).
  - unfold updateStatus. now destruct (lookupSession _ _) as [[r st] |].
  - now destruct (shutdown_spec p grace1 grace2 w Hwf) as [-> _].
  - now rewrite deliver_sessions.
Qed.

Lemma steps_registered w cs :
  wf w ->
  Map.keys (sessions (steps p w cs))
  = fold_left registeredAfter cs (Map.keys (sessions w)).
Proof.
  revert w. induction cs as [|c cs IH]; intros w Hwf; [reflexivity |].
  cbn [steps fold_left]. fold (steps p (step p w c) cs).
  rewrite IH by now apply wf_step. now rewrite step_registered.
Qed.

(** X7.  In every manager that calls and child events lead to, the
    registry holds each id once, every entry refers to an object with
    that id, [list()] returns one session per registered id, and the
    order of [list()] is the order of creation: its ids are those that
    the [create] calls of the run registered and no [kill] or [shutdown]
    has removed since, each id at the place of its last creation. *)
Theorem registry_is_consistent (cs : list Call) :
  let w := steps p empty cs in
  NoDup (Map.keys (sessions w))
  /\ wf w
  /\ id <$> list_ w = Map.keys (sessions w)
  /\ (forall sessionId, Map.has sessionId (sessions w) = true <->
        exists state, state ∈ list_ w /\ id state = sessionId)
  /\ id <$> list_ w = creationOrder cs.
Proof.
  intros w.
  assert (Hwf : wf w) by apply wf_steps, wf_empty.
  assert (Hnodup : NoDup (Map.keys (sessions w))).
  { subst w. clear Hwf.
    assert (Hgen : forall w0, NoDup (Map.keys (sessions w0)) ->
                              NoDup (Map.keys (sessions (steps p w0 cs)))).
    { induction cs as [|c cs IH]; intros w0 Hw0; [exact Hw0 |].
      cbn [steps fold_left]. apply IH.
      destruct (step_cases p w0 c) as [(_ & Hsub & _) | Hnew].
      - eapply sublist_NoDup;
          first [exact Hw0 | unfold Map.keys; apply fmap_sublist; exact Hsub].
      - destruct Hnew as (options & now & child & pid & _ & Hfree & _ & ->).
        unfold Map.keys in *. rewrite fmap_app. apply NoDup_app.
        split; [exact Hw0 |]. split; [| apply NoDup_singleton].
        intros k Hk Hin. cbn in Hin.
        apply elem_of_cons in Hin as [-> | Hin]; [| now apply elem_of_nil in Hin].
        now apply (Map_get_None_keys _ _ Hfree). }
    apply Hgen. constructor. }
  pose proof (wf_list w Hwf) as Hlist.
  split; [exact Hnodup |]. split; [exact Hwf |]. split; [exact Hlist |].
  split.
  - intros sessionId. unfold Map.has. split.
    + destruct (Map.get sessionId (sessions w)) as [r |] eqn:Hget; [| discriminate].
      intros _. destruct (lookupSession_wf _ _ _ Hwf Hget) as (st & Hfound & Hid).
      exists st. split; [| exact Hid]. unfold list_.
      apply list_elem_of_omap. exists r. split.
      * unfold Map.values. apply list_elem_of_fmap. exists (sessionId, r).
        split; [reflexivity | now apply Map_get_elem].
      * now apply lookupSession_Some in Hfound.
    + intros (st & Hin & Hid).
      assert (Hkey : sessionId ∈ Map.keys (sessions w)).
      { rewrite <- Hlist, <- Hid. now apply list_elem_of_fmap_2. }
      apply Map_get_key in Hkey as [r ->]. reflexivity.
  - rewrite Hlist. unfold w, creationOrder.
    now rewrite (steps_registered empty cs wf_empty).
Qed.

End CreationOrder.

Example creationOrder_busyCalls : creationOrder busyCalls = [utf16 "t"; utf16 "s"].
Proof. vm_compute. reflexivity. Qed.

(** ** Offline sessions and their id *)

(** In a well-formed manager the calls that can revive the object
    behind [r] are among the [updateStatus] calls on the object's own
    id: a run without such a call with [idle] or [working] revives
    nothing. *)
Lemma quiet_on_own_id p r w cs state :
  wf w -> store w !! r = Some state ->
  Forall (fun c => ~ setsActive (id state) c) cs ->
  revived p r w cs = false.
Proof.
  revert w state. induction cs as [|c cs IH]; intros w state Hwf Hst Hcs; [reflexivity |].
  apply Forall_cons in Hcs as [Hc Hcs]. cbn [revived]. apply orb_false_iff. split.
  - destruct c as [| | | | | | | | | | | sessionId s now | |]; try reflexivity.
    cbn [revives]. destruct s; try reflexivity;
      apply bool_decide_eq_false_2; intros Hget;
      destruct (lookupSession_wf _ _ _ Hwf Hget) as (st & Hfound & Hid);
      apply lookupSession_Some in Hfound as [_ Hst'];
      apply Hc; cbn; (split; [congruence | discriminate]).
  - destruct (step_keeps_object p (fun st => id st = id state) w c r (keeps_id p (id state)))
      as (state' & Hst' & Hid); [exists state; auto |].
    apply (IH _ state'); [now apply wf_step | exact Hst' |]. now rewrite Hid.
Qed.
